(** * Hydrology of [tgen6_water.py]: water mask, sources, downhill paths, lakes

    A shallow embedding of the grid algorithms of [TerrainGenerator]
    ([generate_water], [is_local_maximum], [find_water_sources],
    [find_downhill_water_path], [generate_rivers], [generate_lakes],
    [is_local_minimum], [expand_lake],
    [generate_merged_elevation_and_river_map]) and the properties proved
    about them.

    Conventions of the embedding.
    - A two-dimensional [numpy] array is a record of its shape and of its
      row-major data.  Cell values are finite floating-point numbers in the
      program; they are embedded as rationals ([Q]): comparisons,
      subtraction and addition are exact here, rounding and NaN are not
      modelled.
    - Python integers (coordinates, offsets) are [Z].
    - A Python call either returns, raises, or does not come back; the
      type [outcome] has the three cases.  [while] loops take a fuel
      argument of type [nat], one unit per iteration, and give [Timeout]
      when it runs out. *)

From Stdlib Require Import ZArith QArith Qround Lia Lqa.
From stdpp Require Import base decidable option list list_numbers gmap.

Local Open Scope Z_scope.

(** ** Outcomes of a call *)

Inductive exn : Set := IndexError | ValueError.

Inductive outcome (A : Type) : Type :=
| Return (a : A)
| Raise (e : exn)
| Timeout.
Arguments Return {A} a.
Arguments Raise {A} e.
Arguments Timeout {A}.

#[global] Instance outcome_ret : MRet outcome := λ A a, Return a.
#[global] Instance outcome_bind : MBind outcome := λ A B f c,
  match c with
  | Return a => f a
  | Raise e => Raise e
  | Timeout => Timeout
  end.

(** ** Rational comparisons as booleans *)

Definition Qlt_bool (a b : Q) : bool := negb (Qle_bool b a).

(** ** Arrays *)

Module Np.

Abbreviation cell := (Z * Z)%type (only parsing).

Record ndarray : Type := mk_ndarray {
  shape0 : nat;          (* number of rows, [a.shape[0]] *)
  shape1 : nat;          (* number of columns, [a.shape[1]] *)
  data : list Q          (* the cells, row after row *)
}.

(** The data of an array fills its shape. *)
Definition wf (a : ndarray) : Prop :=
  length (data a) = (shape0 a * shape1 a)%nat.

(** One index along an axis of length [n]: [0 .. n-1] as it is, and
    [-n .. -1] counted from the end; anything else is an [IndexError]. *)
Definition axis_index (n : nat) (i : Z) : option nat :=
  if decide (0 ≤ i < Z.of_nat n) then Some (Z.to_nat i)
  else if decide (- Z.of_nat n ≤ i < 0) then Some (Z.to_nat (i + Z.of_nat n))
  else None.

Definition flat_index (a : ndarray) (y x : Z) : option nat :=
  r ← axis_index (shape0 a) y;
  c ← axis_index (shape1 a) x;
  Some (r * shape1 a + c)%nat.

(** [a[y, x]] *)
Definition getitem (a : ndarray) (y x : Z) : outcome Q :=
  match flat_index a y x with
  | Some i =>
      match data a !! i with
      | Some v => Return v
      | None => Raise IndexError
      end
  | None => Raise IndexError
  end.

(** [a[y, x] = v] *)
Definition setitem (a : ndarray) (y x : Z) (v : Q) : outcome ndarray :=
  match flat_index a y x with
  | Some i =>
      if decide (i < length (data a))%nat
      then Return (mk_ndarray (shape0 a) (shape1 a) (<[i:=v]> (data a)))
      else Raise IndexError
  | None => Raise IndexError
  end.

(** [np.zeros(shape)] *)
Definition zeros (h w : nat) : ndarray :=
  mk_ndarray h w (replicate (h * w) 0%Q).

(** [np.copy(a)]: a fresh array with the same contents. *)
Definition copy (a : ndarray) : ndarray :=
  mk_ndarray (shape0 a) (shape1 a) (data a).

(** [range(lo, hi)] *)
Definition range (lo hi : Z) : list Z := seqZ lo (hi - lo).

(** All coordinates of an array, row after row: the order of
    [for y in range(shape[0]): for x in range(shape[1])] and of
    [np.argwhere]. *)
Definition cells (a : ndarray) : list cell :=
  y ← range 0 (Z.of_nat (shape0 a)); x ← range 0 (Z.of_nat (shape1 a)); [(y, x)].

(** [0 <= y < a.shape[0] and 0 <= x < a.shape[1]] *)
Definition in_bounds (a : ndarray) (y x : Z) : bool :=
  bool_decide (0 ≤ y < Z.of_nat (shape0 a)) && bool_decide (0 ≤ x < Z.of_nat (shape1 a)).

(** The value of an in-bounds cell, for use in statements. *)
Definition at_ (a : ndarray) (c : cell) : Q :=
  default 0%Q (data a !! (Z.to_nat c.1 * shape1 a + Z.to_nat c.2)%nat).

End Np.
Import Np.

(** The nine offsets [(dy, dx)] of
    [for dy in range(-1, 2): for dx in range(-1, 2)], in that order. *)
Definition offsets : list (Z * Z) :=
  Eval cbv in (dy ← range (-1) 2; dx ← range (-1) 2; [(dy, dx)]).

(** ** [generate_water] *)

(** The mask starts as zeros; cells at or below the level are set to 1,
    then cells above the level are set to 0. *)
Definition water_value (water_level e : Q) : Q :=
  let v := 0%Q in
  let v := if Qle_bool e water_level then 1%Q else v in
  let v := if Qlt_bool water_level e then 0%Q else v in
  v.

Definition generate_water (elevation_map : ndarray) (water_level : Q) : ndarray :=
  mk_ndarray (shape0 elevation_map) (shape1 elevation_map)
             (water_value water_level <$> data elevation_map).

(** ** [is_local_maximum] *)

(** The double loop over the offsets; the centre is skipped, and the first
    in-bounds neighbour above [max_elevation] answers [False]. *)
Fixpoint local_max_scan (elevation_map : ndarray) (max_elevation : Q) (y x : Z)
    (offs : list (Z * Z)) : outcome bool :=
  match offs with
  | [] => Return true
  | (dy, dx) :: rest =>
      if bool_decide (dy = 0) && bool_decide (dx = 0)
      then local_max_scan elevation_map max_elevation y x rest
      else
        let ny := y + dy in
        let nx := x + dx in
        if in_bounds elevation_map ny nx then
          e ← getitem elevation_map ny nx;
          if Qlt_bool max_elevation e then Return false
          else local_max_scan elevation_map max_elevation y x rest
        else local_max_scan elevation_map max_elevation y x rest
  end.

Definition is_local_maximum (y x : Z) (elevation_map : ndarray) : outcome bool :=
  max_elevation ← getitem elevation_map y x;
  local_max_scan elevation_map max_elevation y x offsets.

(** ** [np.percentile] and [find_water_sources] *)

Fixpoint insert_sorted (v : Q) (l : list Q) : list Q :=
  match l with
  | [] => [v]
  | u :: rest => if Qle_bool v u then v :: l else u :: insert_sorted v rest
  end.

Definition np_sort (l : list Q) : list Q := foldr insert_sorted [] l.

(** [np.percentile(a, q)] belongs to numpy, not to the repository; this is
    its documented behaviour on the flattened array with the default
    linear method: a percentile outside [0, 100] is refused with a
    [ValueError] before the data is looked at; the answer is read off the
    sorted data at the fractional position [(n - 1) * q / 100] by linear
    interpolation; an empty array has no last element to read and the call
    ends in an [IndexError]. *)
Definition np_percentile (a : list Q) (q : Q) : outcome Q :=
  if negb (Qle_bool 0 q && Qle_bool q 100) then Raise ValueError
  else
    let s := np_sort a in
    let n := Z.of_nat (length s) in
    if decide (n = 0) then Raise IndexError
    else
      let virtual := (inject_Z (n - 1) * (q / 100))%Q in
      let lo := Qfloor virtual in
      let hi := Z.min (lo + 1) (n - 1) in
      let gamma := (virtual - inject_Z lo)%Q in
      let a_lo := default 0%Q (s !! Z.to_nat lo) in
      let a_hi := default 0%Q (s !! Z.to_nat hi) in
      Return (a_lo + (a_hi - a_lo) * gamma)%Q.

(** [np.argwhere(elevation_map > threshold)] *)
Definition argwhere_gt (elevation_map : ndarray) (threshold : Q) : list cell :=
  filter (λ c, Qlt_bool threshold (at_ elevation_map c) = true) (cells elevation_map).

(** [[(y, x) for y, x in sources if self.is_local_maximum(y, x, elevation_map)]] *)
Fixpoint keep_local_maxima (elevation_map : ndarray) (sources : list cell)
    : outcome (list cell) :=
  match sources with
  | [] => Return []
  | (y, x) :: rest =>
      b ← is_local_maximum y x elevation_map;
      kept ← keep_local_maxima elevation_map rest;
      Return (if b : bool then (y, x) :: kept else kept)
  end.

Definition find_water_sources (elevation_map : ndarray) (percentile : Q)
    : outcome (list cell) :=
  threshold ← np_percentile (data elevation_map) percentile;
  let sources := argwhere_gt elevation_map threshold in
  keep_local_maxima elevation_map sources.

(** ** [find_downhill_water_path] *)

(** The double loop of one iteration: [lowest] and [(next_y, next_x)] are
    replaced each time an in-bounds cell off the path is below [lowest]. *)
Fixpoint downhill_scan (elevation_map : ndarray) (path : list cell) (y x : Z)
    (offs : list (Z * Z)) (lowest : Q) (next : option cell)
    : outcome (Q * option cell) :=
  match offs with
  | [] => Return (lowest, next)
  | (dy, dx) :: rest =>
      let ny := y + dy in
      let nx := x + dx in
      if in_bounds elevation_map ny nx && bool_decide ((ny, nx) ∉ path) then
        e ← getitem elevation_map ny nx;
        if Qlt_bool e lowest
        then downhill_scan elevation_map path y x rest e (Some (ny, nx))
        else downhill_scan elevation_map path y x rest lowest next
      else downhill_scan elevation_map path y x rest lowest next
  end.

(** The [while True] loop; [path] is the list before this iteration's
    [append]. *)
Fixpoint downhill_loop (fuel : nat) (elevation_map : ndarray) (path : list cell)
    (y x : Z) : outcome (list cell) :=
  match fuel with
  | O => Timeout
  | S fuel =>
      let path := path ++ [(y, x)] in
      lowest ← getitem elevation_map y x;
      r ← downhill_scan elevation_map path y x offsets lowest None;
      match r.2 with
      | None => Return path
      | Some (next_y, next_x) =>
          e_next ← getitem elevation_map next_y next_x;
          e_here ← getitem elevation_map y x;
          if Qle_bool e_here e_next then Return path
          else downhill_loop fuel elevation_map path next_y next_x
      end
  end.

Definition find_downhill_water_path (fuel : nat) (y x : Z) (elevation_map : ndarray)
    : outcome (list cell) :=
  downhill_loop fuel elevation_map [] y x.

(** ** [expand_lake] *)

(** The value written for a lake cell ([river_map[ny, nx] = 2]). *)
Definition lake_mark : Q := 2%Q.

(** The state the flood fill works on: the river map, which the caller
    owns and which is updated in place, and the queue. *)
Definition lake_state : Type := ndarray * list cell.

(** The body of the double loop for the neighbour [(ny, nx)].  Every
    access that can raise comes before the write, so a raise leaves the
    state as it was. *)
Definition lake_admit (elevation_map : ndarray)
    (start_elevation lake_depth max_gradient : Q) (ny nx : Z) (st : lake_state)
    : outcome lake_state :=
  if in_bounds elevation_map ny nx then
    e ← getitem elevation_map ny nx;
    let elevation_difference := (e - start_elevation)%Q in
    if Qle_bool elevation_difference lake_depth
       && Qle_bool (- max_gradient) elevation_difference
    then
      v ← getitem st.1 ny nx;
      river_map ← (if Qeq_bool v 0 then setitem st.1 ny nx lake_mark else Return st.1);
      Return (river_map, st.2 ++ [(ny, nx)])
    else Return st
  else Return st.

(** The double loop around [(cy, cx)]: the outcome and the state reached. *)
Fixpoint lake_scan (elevation_map : ndarray)
    (start_elevation lake_depth max_gradient : Q) (cy cx : Z)
    (offs : list (Z * Z)) (st : lake_state) : outcome unit * lake_state :=
  match offs with
  | [] => (Return (), st)
  | (dy, dx) :: rest =>
      match lake_admit elevation_map start_elevation lake_depth max_gradient
                       (cy + dy) (cx + dx) st with
      | Return st' =>
          lake_scan elevation_map start_elevation lake_depth max_gradient cy cx rest st'
      | Raise e => (Raise e, st)
      | Timeout => (Timeout, st)
      end
  end.

(** The [while queue] loop: the outcome and the river map as the call
    leaves it. *)
Fixpoint lake_loop (fuel : nat) (elevation_map : ndarray)
    (start_elevation lake_depth max_gradient : Q)
    (queue : list cell) (visited : gset cell) (river_map : ndarray)
    : outcome unit * ndarray :=
  match queue with
  | [] => (Return (), river_map)
  | (cy, cx) :: queue =>
      match fuel with
      | O => (Timeout, river_map)
      | S fuel =>
          if bool_decide ((cy, cx) ∈ visited) then
            lake_loop fuel elevation_map start_elevation lake_depth max_gradient
                      queue visited river_map
          else
            let visited := {[ (cy, cx) ]} ∪ visited in
            match lake_scan elevation_map start_elevation lake_depth max_gradient
                            cy cx offsets (river_map, queue) with
            | (Return _, (river_map, queue)) =>
                lake_loop fuel elevation_map start_elevation lake_depth max_gradient
                          queue visited river_map
            | (Raise e, (river_map, _)) => (Raise e, river_map)
            | (Timeout, (river_map, _)) => (Timeout, river_map)
            end
      end
  end.

(** [expand_lake(y, x, elevation_map, river_map, lake_depth, max_gradient)]:
    the outcome of the call and the contents of [river_map] after it. *)
Definition expand_lake (fuel : nat) (y x : Z) (elevation_map river_map : ndarray)
    (lake_depth max_gradient : Q) : outcome unit * ndarray :=
  match getitem elevation_map y x with
  | Return start_elevation =>
      lake_loop fuel elevation_map start_elevation lake_depth max_gradient
                [(y, x)] ∅ river_map
  | Raise e => (Raise e, river_map)
  | Timeout => (Timeout, river_map)
  end.

(** A callee's outcome and state, seen from a caller that goes on with the
    state only when the callee returned. *)
Definition returned {S : Type} (r : outcome unit * S) : outcome S :=
  match r.1 with
  | Return _ => Return r.2
  | Raise e => Raise e
  | Timeout => Timeout
  end.

(** ** [generate_rivers] *)

(** [for y, x in path]: the width grows by the water value of each water
    cell crossed and is written at the cell.  The result is the river map
    and the value of [width] after the loop. *)
Fixpoint river_walk (water_map : ndarray) (path : list cell) (width : Q)
    (river_map : ndarray) : outcome (ndarray * Q) :=
  match path with
  | [] => Return (river_map, width)
  | (y, x) :: rest =>
      w ← getitem water_map y x;
      let width := if Qle_bool 1 w then (width + w)%Q else width in
      river_map ← setitem river_map y x width;
      river_walk water_map rest width river_map
  end.

(** [path[-1]] *)
Definition last_cell (path : list cell) : outcome cell :=
  match last path with
  | Some c => Return c
  | None => Raise IndexError
  end.

Fixpoint rivers_loop (fuel : nat) (elevation_map water_map : ndarray)
    (water_sources : list cell) (river_map : ndarray) : outcome ndarray :=
  match water_sources with
  | [] => Return river_map
  | (y, x) :: rest =>
      path ← find_downhill_water_path fuel y x elevation_map;
      walked ← river_walk water_map path 1%Q river_map;
      c ← last_cell path;
      river_map ← returned (expand_lake fuel c.1 c.2 elevation_map walked.1 100%Q 50%Q);
      rivers_loop fuel elevation_map water_map rest river_map
  end.

Definition generate_rivers (fuel : nat) (elevation_map water_map : ndarray)
    (water_sources : list cell) : outcome ndarray :=
  rivers_loop fuel elevation_map water_map water_sources
              (zeros (shape0 elevation_map) (shape1 elevation_map)).

(** ** [is_local_minimum] and [generate_lakes] *)

(** The double loop over the offsets (the centre included); the first
    in-bounds cell below [min_elevation] answers [False]. *)
Fixpoint local_min_scan (elevation_map : ndarray) (min_elevation : Q) (y x : Z)
    (offs : list (Z * Z)) : outcome bool :=
  match offs with
  | [] => Return true
  | (dy, dx) :: rest =>
      let ny := y + dy in
      let nx := x + dx in
      if in_bounds elevation_map ny nx then
        e ← getitem elevation_map ny nx;
        if Qlt_bool e min_elevation then Return false
        else local_min_scan elevation_map min_elevation y x rest
      else local_min_scan elevation_map min_elevation y x rest
  end.

Definition is_local_minimum (y x : Z) (elevation_map : ndarray) : outcome bool :=
  min_elevation ← getitem elevation_map y x;
  local_min_scan elevation_map min_elevation y x offsets.

(** The loops of [generate_lakes] over the cells [cs] still to look at.
    Next to the map, the cells at which [expand_lake] was called are
    recorded, in the order of the calls. *)
Fixpoint lakes_loop (fuel : nat) (elevation_map : ndarray) (cs : list cell)
    (lakes_map : ndarray) (seeds : list cell) : outcome (ndarray * list cell) :=
  match cs with
  | [] => Return (lakes_map, seeds)
  | (y, x) :: rest =>
      b ← is_local_minimum y x elevation_map;
      if b : bool then
        lakes_map ← returned (expand_lake fuel y x elevation_map lakes_map 50%Q 50%Q);
        lakes_loop fuel elevation_map rest lakes_map (seeds ++ [(y, x)])
      else lakes_loop fuel elevation_map rest lakes_map seeds
  end.

Definition generate_lakes_seeded (fuel : nat) (elevation_map river_map : ndarray)
    : outcome (ndarray * list cell) :=
  lakes_loop fuel elevation_map (cells elevation_map) (copy river_map) [].

Definition generate_lakes (fuel : nat) (elevation_map river_map : ndarray)
    : outcome ndarray :=
  r ← generate_lakes_seeded fuel elevation_map river_map; Return r.1.

(** ** [generate_merged_elevation_and_river_map] *)

Fixpoint merge_loop (river_map : ndarray) (cs : list cell) (merged_map : ndarray)
    : outcome ndarray :=
  match cs with
  | [] => Return merged_map
  | (y, x) :: rest =>
      r ← getitem river_map y x;
      merged_map ← (if Qlt_bool 0 r then setitem merged_map y x r else Return merged_map);
      merge_loop river_map rest merged_map
  end.

Definition generate_merged_elevation_and_river_map (elevation_map river_map : ndarray)
    : outcome ndarray :=
  merge_loop river_map (cells elevation_map) (copy elevation_map).

(** ** Notions used in the statements *)

(** [c] is a cell of the array. *)
Definition inside (a : ndarray) (c : cell) : Prop :=
  0 ≤ c.1 < Z.of_nat (shape0 a) ∧ 0 ≤ c.2 < Z.of_nat (shape1 a).

(** [n] is one of the eight cells around [c]. *)
Definition neighbor8 (c n : cell) : Prop :=
  Z.abs (n.1 - c.1) ≤ 1 ∧ Z.abs (n.2 - c.2) ≤ 1 ∧ n ≠ c.

(** A cell the tracer may move to from [cur]: an in-bounds 8-neighbour,
    not on [path], strictly lower than [cur]. *)
Definition candidate (elevation_map : ndarray) (path : list cell) (cur n : cell)
    : Prop :=
  neighbor8 cur n ∧ inside elevation_map n ∧ (n ∉ path)
  ∧ (at_ elevation_map n < at_ elevation_map cur)%Q.

Definition chebyshev (a b : cell) : Z :=
  Z.max (Z.abs (a.1 - b.1)) (Z.abs (a.2 - b.2)).

(** [descent elev path cur rest]: after the cells of [path], the tracer
    standing on [cur] goes on through the cells of [rest], each time to a
    lowest candidate, and stops when there is none. *)
Inductive descent (elevation_map : ndarray) : list cell → cell → list cell → Prop :=
| descent_stop path cur :
    (∀ n, ¬ candidate elevation_map (path ++ [cur]) cur n) →
    descent elevation_map path cur []
| descent_step path cur nxt rest :
    candidate elevation_map (path ++ [cur]) cur nxt →
    (∀ n, candidate elevation_map (path ++ [cur]) cur n →
          (at_ elevation_map nxt <= at_ elevation_map n)%Q) →
    descent elevation_map (path ++ [cur]) nxt rest →
    descent elevation_map path cur (nxt :: rest).

(** Slopes from a corner.  A direction is [1] (towards growing indices)
    or [-1] along each axis; the slope starts at the corner [start_of] and
    runs to the opposite corner [end_of]. *)
Definition start_of (n : nat) (s : Z) : Z :=
  if decide (s = 1) then 0 else Z.of_nat n - 1.

Definition end_of (n : nat) (s : Z) : Z :=
  if decide (s = 1) then Z.of_nat n - 1 else 0.

(** The elevation falls strictly with every step away from the starting
    corner, along the rows and along the columns. *)
Definition is_slope (elevation_map : ndarray) (sy sx : Z) : Prop :=
  ∀ c, inside elevation_map c →
    (inside elevation_map (c.1 + sy, c.2) →
       Qlt (at_ elevation_map (c.1 + sy, c.2)) (at_ elevation_map c)) ∧
    (inside elevation_map (c.1, c.2 + sx) →
       Qlt (at_ elevation_map (c.1, c.2 + sx)) (at_ elevation_map c)).

(** The [i]-th cell of the run from the starting corner: one diagonal
    step at a time, and along the border once an edge is reached. *)
Definition slope_cell (elevation_map : ndarray) (sy sx : Z) (i : nat) : cell :=
  (start_of (shape0 elevation_map) sy
     + sy * Z.min (Z.of_nat i) (Z.of_nat (shape0 elevation_map) - 1),
   start_of (shape1 elevation_map) sx
     + sx * Z.min (Z.of_nat i) (Z.of_nat (shape1 elevation_map) - 1)).

(** [b] is not behind [a] in the direction of the slope. *)
Definition ahead (sy sx : Z) (a b : cell) : Prop :=
  0 ≤ sy * (b.1 - a.1) ∧ 0 ≤ sx * (b.2 - a.2).

(** [is_slope], checked cell by cell. *)
Definition is_slope_bool (elevation_map : ndarray) (sy sx : Z) : bool :=
  forallb
    (λ c : Z * Z,
       (negb (in_bounds elevation_map (c.1 + sy) c.2)
        || Qlt_bool (at_ elevation_map (c.1 + sy, c.2)) (at_ elevation_map c))
       && (negb (in_bounds elevation_map c.1 (c.2 + sx))
           || Qlt_bool (at_ elevation_map (c.1, c.2 + sx)) (at_ elevation_map c)))
    (cells elevation_map).

(** What a flood fill may do to a river map: the shape stays, and each
    stored value either stays or, if it was zero, becomes the lake mark. *)
Definition lake_writes (r r' : ndarray) : Prop :=
  shape0 r' = shape0 r ∧ shape1 r' = shape1 r ∧
  length (data r') = length (data r) ∧
  ∀ i v, data r !! i = Some v →
         data r' !! i = Some v ∨ ((v == 0)%Q ∧ data r' !! i = Some lake_mark).

(** Two arrays of the same shape. *)
Definition same_shape (a b : ndarray) : Prop :=
  shape0 a = shape0 b ∧ shape1 a = shape1 b.

(** Fuel that lets the flood fill of [expand_lake] run to its end. *)
Definition lake_fuel (elevation_map : ndarray) : nat :=
  9 * (shape0 elevation_map * shape1 elevation_map) + 10.

(** ** [generate_water_sources] *)

(** [for y, x in water_sources: water_source_map[y, x] = 1] *)
Fixpoint mark_sources (water_sources : list cell) (water_source_map : ndarray)
    : outcome ndarray :=
  match water_sources with
  | [] => Return water_source_map
  | (y, x) :: rest =>
      water_source_map ← setitem water_source_map y x 1%Q;
      mark_sources rest water_source_map
  end.

Definition generate_water_sources (elevation_map : ndarray) (percentile : Q)
    : outcome ndarray :=
  water_sources ← find_water_sources elevation_map percentile;
  mark_sources water_sources (zeros (shape0 elevation_map) (shape1 elevation_map)).

(** ** The maps computed by [tgen6_example.py] *)

(** The hydrology part of the example script, from the elevation map on:
    water at level 1000, sources at the 95th percentile, the source map,
    rivers, lakes and the merged map. *)
Record example_maps : Type := mk_example_maps {
  ex_water_map : ndarray;
  ex_water_sources : list cell;
  ex_water_sources_map : ndarray;
  ex_river_map : ndarray;
  ex_lakes_map : ndarray;
  ex_merged_map : ndarray
}.

Definition tgen6_example (fuel : nat) (elevation_map : ndarray) : outcome example_maps :=
  let water_map := generate_water elevation_map 1000%Q in
  water_sources ← find_water_sources elevation_map 95%Q;
  water_sources_map ← generate_water_sources elevation_map 95%Q;
  river_map ← generate_rivers fuel elevation_map water_map water_sources;
  lakes_map ← generate_lakes fuel elevation_map river_map;
  merged_map ← generate_merged_elevation_and_river_map elevation_map river_map;
  Return (mk_example_maps water_map water_sources water_sources_map
                          river_map lakes_map merged_map).

(** ** Notions used in the further statements *)

(** The elevation of [n] is within the band that [expand_lake] admits
    around the elevation of its seed. *)
Definition in_band (elevation_map : ndarray) (start_elevation lake_depth max_gradient : Q)
    (n : cell) : Prop :=
  (at_ elevation_map n - start_elevation <= lake_depth)%Q ∧
  (- max_gradient <= at_ elevation_map n - start_elevation)%Q.

(** The cells a flood fill from [seed] gets to: the seed, and every
    in-bounds cell of the band that is a cell already reached or one of
    the eight cells around it. *)
Inductive flooded (elevation_map : ndarray) (start_elevation lake_depth max_gradient : Q)
    (seed : cell) : cell → Prop :=
| flooded_seed : flooded elevation_map start_elevation lake_depth max_gradient seed seed
| flooded_step c n :
    flooded elevation_map start_elevation lake_depth max_gradient seed c →
    Z.abs (n.1 - c.1) ≤ 1 → Z.abs (n.2 - c.2) ≤ 1 →
    inside elevation_map n →
    in_band elevation_map start_elevation lake_depth max_gradient n →
    flooded elevation_map start_elevation lake_depth max_gradient seed n.

(** The basin of a seed: the cells of the band that the flood gets to. *)
Definition basin (elevation_map : ndarray) (lake_depth max_gradient : Q)
    (seed n : cell) : Prop :=
  flooded elevation_map (at_ elevation_map seed) lake_depth max_gradient seed n ∧
  inside elevation_map n ∧
  in_band elevation_map (at_ elevation_map seed) lake_depth max_gradient n.

(** A cell of the grid none of whose in-bounds 8-neighbours is strictly
    lower: the cells [generate_lakes] seeds. *)
Definition lake_seed (elevation_map : ndarray) (c : cell) : Prop :=
  inside elevation_map c ∧
  ∀ n, neighbor8 c n → inside elevation_map n →
       ¬ (at_ elevation_map n < at_ elevation_map c)%Q.

(** ** Grids used in the examples *)

(** An array given by its shape and integer cell values. *)
Definition grid (h w : nat) (values : list Z) : ndarray :=
  mk_ndarray h w (inject_Z <$> values).

(** A 3 x 3 slope falling from the corner (0, 0) to the corner (2, 2). *)
Definition slope_3x3 : ndarray :=
  grid 3 3 [ 0; -1; -2;
            -1; -2; -3;
            -2; -3; -4].

(** A pit surrounded by a rim (Scenario A of the specification). *)
Definition pit_3x3 : ndarray :=
  grid 3 3 [5; 5; 5;
            5; 1; 5;
            5; 5; 5].

(** A flat strip of two cells. *)
Definition flat_1x2 : ndarray := grid 1 2 [0; 0].

(** A grid of height 0 and width 3. *)
Definition empty_0x3 : ndarray := grid 0 3 [].

(** The river map after the walk down the 3 x 3 slope with water at -3 and
    below. *)
Definition slope_3x3_walked : ndarray := grid 3 3 [1; 0; 0; 0; 1; 0; 0; 0; 2].

(** The diagonal of a 3 x 3 grid, from (0, 0). *)
Definition diagonal_3x3 : list cell := [(0, 0); (1, 1); (2, 2)].

(** A river map holding one lake cell in the middle. *)
Definition lake_3x3 : ndarray := grid 3 3 [0; 0; 0; 0; 2; 0; 0; 0; 0].

(** * Properties *)

(** ** The outcome monad and comparisons *)

Lemma bind_Return_inv {A B} (c : outcome A) (f : A → outcome B) b :
  c ≫= f = Return b → ∃ a, c = Return a ∧ f a = Return b.
Proof. destruct c; simpl; intros; [eauto | done | done]. Qed.

(** Unfolds the binds of [outcome] and nothing else. *)
Ltac bind_simpl := cbn [mbind outcome_bind mret outcome_ret].

Lemma Qlt_bool_iff a b : Qlt_bool a b = true ↔ (a < b)%Q.
Proof.
  unfold Qlt_bool. rewrite negb_true_iff, <- not_true_iff_false, Qle_bool_iff.
  split; [apply Qnot_le_lt | apply Qlt_not_le].
Qed.

Lemma Qlt_bool_false a b : Qlt_bool a b = false ↔ (b <= a)%Q.
Proof. unfold Qlt_bool. rewrite negb_false_iff. apply Qle_bool_iff. Qed.

(** ** Arrays *)

Lemma in_bounds_inside a y x : in_bounds a y x = true ↔ inside a (y, x).
Proof.
  unfold in_bounds, inside. rewrite andb_true_iff, !bool_decide_eq_true. done.
Qed.

Lemma in_bounds_outside a y x : in_bounds a y x = false ↔ ¬ inside a (y, x).
Proof. rewrite <- in_bounds_inside. symmetry. apply not_true_iff_false. Qed.

Lemma axis_index_inside n i :
  0 ≤ i < Z.of_nat n → axis_index n i = Some (Z.to_nat i).
Proof. intros. unfold axis_index. by rewrite decide_True. Qed.

Lemma axis_index_lt n i k : axis_index n i = Some k → (k < n)%nat.
Proof.
  unfold axis_index. repeat case_decide; intros; simplify_eq; lia.
Qed.

Lemma flat_index_inside a y x :
  inside a (y, x) →
  flat_index a y x = Some (Z.to_nat y * shape1 a + Z.to_nat x)%nat.
Proof.
  intros [??]. unfold flat_index. simpl in *.
  by rewrite !axis_index_inside.
Qed.

Lemma flat_index_lt a y x i :
  flat_index a y x = Some i → (i < shape0 a * shape1 a)%nat.
Proof.
  unfold flat_index. intros H.
  destruct (axis_index (shape0 a) y) as [r|] eqn:Hr; [|done].
  destruct (axis_index (shape1 a) x) as [c|] eqn:Hc; [|done].
  simpl in H. simplify_eq.
  apply axis_index_lt in Hr, Hc. nia.
Qed.

Lemma getitem_inside a y x :
  wf a → inside a (y, x) → getitem a y x = Return (at_ a (y, x)).
Proof.
  intros Hwf Hin. unfold getitem, at_. rewrite (flat_index_inside _ _ _ Hin). simpl.
  destruct (data a !! _) eqn:E; [done|].
  apply lookup_ge_None in E. rewrite Hwf in E.
  pose proof (flat_index_lt _ _ _ _ (flat_index_inside _ _ _ Hin)). lia.
Qed.

Lemma getitem_not_Timeout a y x : getitem a y x ≠ Timeout.
Proof. unfold getitem. repeat case_match; done. Qed.

Lemma setitem_not_Timeout a y x v : setitem a y x v ≠ Timeout.
Proof. unfold setitem. repeat case_match; done. Qed.

Lemma elem_of_range lo hi k : k ∈ range lo hi ↔ lo ≤ k < hi.
Proof. unfold range. rewrite elem_of_seqZ. lia. Qed.

Lemma elem_of_cells a c : c ∈ cells a ↔ inside a c.
Proof.
  unfold cells, inside. rewrite list_elem_of_bind. split.
  - intros (y & Hc & Hy). apply list_elem_of_bind in Hc as (x & Hc & Hx).
    apply list_elem_of_singleton in Hc as ->.
    apply elem_of_range in Hy, Hx. simpl. lia.
  - destruct c as [y x]. simpl. intros [??]. exists y. split.
    + apply list_elem_of_bind. exists x. split; [by apply list_elem_of_singleton|].
      apply elem_of_range. lia.
    + apply elem_of_range. lia.
Qed.

Lemma length_bind_const {A B} (f : A → list B) (l : list A) (n : nat) :
  (∀ x, length (f x) = n) → length (l ≫= f) = (length l * n)%nat.
Proof.
  intros Hf. induction l as [|x l IH]; [done|].
  rewrite bind_cons, length_app, IH, Hf. simpl. lia.
Qed.

Lemma length_cells a : length (cells a) = (shape0 a * shape1 a)%nat.
Proof.
  unfold cells, range.
  rewrite (length_bind_const _ _ (shape1 a)).
  - rewrite length_seqZ. lia.
  - intros y. rewrite (length_bind_const _ _ 1%nat); [|done].
    rewrite length_seqZ. lia.
Qed.

Lemma NoDup_cells a : NoDup (cells a).
Proof.
  unfold cells, range. apply NoDup_bind.
  - intros y1 y2 c _ _ H1 H2.
    apply list_elem_of_bind in H1 as (x1 & H1 & _), H2 as (x2 & H2 & _).
    apply list_elem_of_singleton in H1, H2. congruence.
  - intros y _. apply NoDup_bind.
    + intros x1 x2 c _ _ H1 H2. apply list_elem_of_singleton in H1, H2. congruence.
    + intros. apply NoDup_singleton.
    + apply NoDup_seqZ.
  - apply NoDup_seqZ.
Qed.

(** No list of distinct cells of an array is longer than the array. *)
Lemma distinct_cells_length a (l : list cell) :
  NoDup l → (∀ c, c ∈ l → inside a c) → (length l ≤ shape0 a * shape1 a)%nat.
Proof.
  intros Hnd Hin. rewrite <- length_cells.
  apply submseteq_length, NoDup_submseteq; [done|].
  intros c Hc. apply elem_of_cells. auto.
Qed.

Lemma elem_of_offsets dy dx :
  (dy, dx) ∈ offsets ↔ -1 ≤ dy ≤ 1 ∧ -1 ≤ dx ≤ 1.
Proof.
  unfold offsets. rewrite !elem_of_cons, elem_of_nil. split.
  - intros H. repeat destruct H as [H|H]; try done; simplify_eq; lia.
  - intros [Hy Hx].
    assert (dy = -1 ∨ dy = 0 ∨ dy = 1) as Hdy by lia.
    assert (dx = -1 ∨ dx = 0 ∨ dx = 1) as Hdx by lia.
    destruct Hdy as [-> | [-> | ->] ], Hdx as [-> | [-> | ->] ]; tauto.
Qed.

(** The cells reached by the nine offsets are the centre and its eight
    neighbours. *)
Lemma offsets_reach (c n : cell) :
  (∃ d, d ∈ offsets ∧ n = (c.1 + d.1, c.2 + d.2)) ↔ n = c ∨ neighbor8 c n.
Proof.
  destruct c as [y x], n as [ny nx]. unfold neighbor8. simpl. split.
  - intros ([dy dx] & Hd & Heq). apply elem_of_offsets in Hd. simpl in Heq.
    destruct (decide ((ny, nx) = (y, x))); [by left|right].
    simplify_eq. split_and!; [lia | lia | done].
  - intros H. exists (ny - y, nx - x). simpl. split.
    + apply elem_of_offsets. destruct H as [?|(? & ? & ?)]; simplify_eq; lia.
    + f_equal; lia.
Qed.

(** ** Water Classifier *)

Lemma water_value_1 level e : water_value level e = 1%Q ↔ (e <= level)%Q.
Proof.
  unfold water_value.
  destruct (Qle_bool e level) eqn:Hle, (Qlt_bool level e) eqn:Hlt.
  - apply Qle_bool_iff in Hle. apply Qlt_bool_iff in Hlt. lra.
  - apply Qle_bool_iff in Hle. done.
  - apply Qlt_bool_iff in Hlt. split; [done | lra].
  - apply Qlt_bool_false in Hlt. apply not_true_iff_false in Hle.
    rewrite Qle_bool_iff in Hle. done.
Qed.

Lemma getitem_generate_water elev level y x v :
  getitem (generate_water elev level) y x = Return v ↔
  ∃ e, getitem elev y x = Return e ∧ v = water_value level e.
Proof.
  unfold getitem, generate_water, flat_index. simpl.
  destruct (axis_index (shape0 elev) y ≫= _) as [i|].
  - rewrite list_lookup_fmap. destruct (data elev !! i) as [e|]; simpl.
    + split; [intros [= <-]; eauto | intros (e' & [= <-] & ->); done].
    + split; [done | intros (e' & [=] & _)].
  - split; [done | intros (e' & [=] & _)].
Qed.

(** C8. Raising the water level only adds water: a cell that
    [generate_water] marks as water (value 1) at [level1] is marked as
    water at every [level2] with [level1 <= level2]. *)
Theorem generate_water_monotone elev (level1 level2 : Q) y x :
  (level1 <= level2)%Q →
  getitem (generate_water elev level1) y x = Return 1%Q →
  getitem (generate_water elev level2) y x = Return 1%Q.
Proof.
  intros Hle H. apply getitem_generate_water in H as (e & He & H1).
  apply getitem_generate_water. exists e. split; [done|].
  symmetry in H1. apply water_value_1 in H1.
  symmetry. apply water_value_1. lra.
Qed.

(** ** Source Detector *)

Lemma local_max_scan_spec elev m y x offs :
  wf elev →
  ∃ b, local_max_scan elev m y x offs = Return b ∧
    (b = true ↔ ∀ d, d ∈ offs → d ≠ (0, 0) → inside elev (y + d.1, x + d.2) →
                   ¬ Qlt m (at_ elev (y + d.1, x + d.2))).
Proof.
  intros Hwf. induction offs as [|[dy dx] rest (b & IH & Hb)]; simpl.
  - exists true. split; [done|]. split; [|done]. intros _ d Hd. by apply elem_of_nil in Hd.
  - destruct (bool_decide (dy = 0) && bool_decide (dx = 0)) eqn:Hc.
    { apply andb_true_iff in Hc as [->%bool_decide_eq_true ->%bool_decide_eq_true].
      exists b. split; [done|]. rewrite Hb. split.
      - intros H d [->|Hd]%elem_of_cons; [done | by apply H].
      - intros H d Hd. apply H. by right. }
    assert ((dy, dx) ≠ (0, 0)) as Hne.
    { intros [=]. subst. by rewrite !bool_decide_eq_true_2 in Hc. }
    destruct (in_bounds elev (y + dy) (x + dx)) eqn:Hin.
    + apply in_bounds_inside in Hin. rewrite (getitem_inside _ _ _ Hwf Hin). simpl.
      destruct (Qlt_bool m (at_ elev (y + dy, x + dx))) eqn:Hlt.
      * exists false. split; [done|]. split; [done|]. intros H. exfalso.
        apply Qlt_bool_iff in Hlt. eapply (H (dy, dx)); [by left | done | done | done].
      * exists b. split; [done|]. rewrite Hb. split.
        -- intros H d [->|Hd]%elem_of_cons; [|by apply H].
           intros _ _. simpl. apply Qlt_bool_false in Hlt. lra.
        -- intros H d Hd. apply H. by right.
    + exists b. split; [done|]. rewrite Hb. split.
      * intros H d [->|Hd]%elem_of_cons; [|by apply H].
        intros _ Hins. apply in_bounds_outside in Hin. done.
      * intros H d Hd. apply H. by right.
Qed.

(** A cell is kept by [is_local_maximum] exactly when none of its
    in-bounds neighbours is strictly higher. *)
Lemma is_local_maximum_spec elev y x :
  wf elev → inside elev (y, x) →
  ∃ b, is_local_maximum y x elev = Return b ∧
    (b = true ↔ ∀ n, neighbor8 (y, x) n → inside elev n →
                   ¬ (at_ elev (y, x) < at_ elev n)%Q).
Proof.
  intros Hwf Hin. unfold is_local_maximum. rewrite (getitem_inside _ _ _ Hwf Hin). bind_simpl.
  destruct (local_max_scan_spec elev (at_ elev (y, x)) y x offsets Hwf) as (b & -> & Hb).
  exists b. split; [done|]. rewrite Hb. split.
  - intros H n Hn Hins.
    destruct (proj2 (offsets_reach (y, x) n) (or_intror Hn)) as (d & Hd & ->).
    simpl in *. apply H; [done | | done].
    intros ->. destruct Hn as (_ & _ & Hne). apply Hne. simpl. f_equal; lia.
  - intros H d Hd Hne Hins. apply H; [|done].
    destruct (proj1 (offsets_reach (y, x) (y + d.1, x + d.2))) as [Heq|]; [by eauto| |done].
    exfalso. apply Hne. destruct d as [dy dx]. simpl in Heq. f_equal; injection Heq; lia.
Qed.

Lemma elem_of_argwhere_gt elev t c :
  c ∈ argwhere_gt elev t ↔ inside elev c ∧ (t < at_ elev c)%Q.
Proof.
  unfold argwhere_gt. rewrite list_elem_of_filter, elem_of_cells, Qlt_bool_iff. tauto.
Qed.

Lemma keep_local_maxima_spec elev sources :
  wf elev → (∀ c, c ∈ sources → inside elev c) →
  ∃ kept, keep_local_maxima elev sources = Return kept ∧
    ∀ c, c ∈ kept ↔ c ∈ sources ∧ is_local_maximum c.1 c.2 elev = Return true.
Proof.
  intros Hwf. induction sources as [|[y x] rest IH]; intros Hin; simpl.
  - exists []. split; [done|]. intros c. rewrite elem_of_nil. tauto.
  - destruct (is_local_maximum_spec elev y x Hwf) as (b & Hb & _).
    { apply Hin. by left. }
    destruct IH as (kept & Hk & Hspec). { intros c Hc. apply Hin. by right. }
    rewrite Hb, Hk. simpl. eexists. split; [done|]. intros c.
    destruct b; rewrite ?elem_of_cons, Hspec; split.
    + intros [->|[??]]; eauto.
    + intros [[->|?] ?]; eauto.
    + intros [??]; eauto.
    + intros [[->|?] ?]; [simpl in *; congruence | eauto].
Qed.

(** C4. Every coordinate returned by [find_water_sources] is a cell whose
    elevation is strictly above the percentile threshold taken over all
    cells, and none of its in-bounds 8-neighbours is strictly higher. *)
Theorem find_water_sources_sound elev percentile sources :
  wf elev →
  find_water_sources elev percentile = Return sources →
  ∃ threshold,
    np_percentile (data elev) percentile = Return threshold ∧
    ∀ c, c ∈ sources →
      inside elev c ∧ (threshold < at_ elev c)%Q ∧
      ∀ n, neighbor8 c n → inside elev n → ¬ (at_ elev c < at_ elev n)%Q.
Proof.
  intros Hwf H. unfold find_water_sources in H.
  apply bind_Return_inv in H as (threshold & Ht & H). exists threshold. split; [done|].
  destruct (keep_local_maxima_spec elev (argwhere_gt elev threshold) Hwf)
    as (kept & Hk & Hspec).
  { intros c Hc. by apply elem_of_argwhere_gt in Hc as [? _]. }
  rewrite Hk in H. injection H as <-.
  intros [y x] Hc. apply Hspec in Hc as [Hc Hmax].
  apply elem_of_argwhere_gt in Hc as [Hin Hgt]. split_and!; [done | done |].
  destruct (is_local_maximum_spec elev y x Hwf Hin) as (b & Hb & Hiff).
  simpl in Hmax. rewrite Hmax in Hb. injection Hb as <-. by apply Hiff.
Qed.

(** ** Flow Tracer *)

Lemma downhill_scan_spec elev path y x offs : ∀ lowest next,
  wf elev →
  ∃ lowest' next',
    downhill_scan elev path y x offs lowest next = Return (lowest', next') ∧
    (lowest' <= lowest)%Q ∧
    (∀ d, d ∈ offs → inside elev (y + d.1, x + d.2) → (y + d.1, x + d.2) ∉ path →
          Qle lowest' (at_ elev (y + d.1, x + d.2))) ∧
    ((next' = next ∧ lowest' = lowest) ∨
     ∃ d, d ∈ offs ∧ next' = Some (y + d.1, x + d.2) ∧
          inside elev (y + d.1, x + d.2) ∧ ((y + d.1, x + d.2) ∉ path) ∧
          lowest' = at_ elev (y + d.1, x + d.2) ∧ (lowest' < lowest)%Q).
Proof.
  induction offs as [|[dy dx] rest IH]; intros lowest next Hwf; simpl.
  - exists lowest, next. split_and!; [done | lra | | by left].
    intros d Hd. by apply elem_of_nil in Hd.
  - destruct (in_bounds elev (y + dy) (x + dx) && bool_decide ((y + dy, x + dx) ∉ path))
      eqn:Hc.
    + apply andb_true_iff in Hc as [Hin%in_bounds_inside Hnp%bool_decide_eq_true].
      rewrite (getitem_inside _ _ _ Hwf Hin). bind_simpl.
      destruct (Qlt_bool (at_ elev (y + dy, x + dx)) lowest) eqn:Hlt.
      * apply Qlt_bool_iff in Hlt.
        destruct (IH (at_ elev (y + dy, x + dx)) (Some (y + dy, x + dx)) Hwf)
          as (l' & n' & -> & Hle & Hall & Hor).
        exists l', n'. split_and!; [done | lra | |].
        -- intros d [->|Hd]%elem_of_cons; [simpl; intros; lra | by apply Hall].
        -- right. destruct Hor as [[-> ->]|(d & Hd & -> & ? & ? & ? & ?)].
           ++ exists (dy, dx). split_and!; [by left | done..].
           ++ exists d. split_and!; [by right | done | done | done | done | lra].
      * apply Qlt_bool_false in Hlt.
        destruct (IH lowest next Hwf) as (l' & n' & -> & Hle & Hall & Hor).
        exists l', n'. split_and!; [done | done | |].
        -- intros d [->|Hd]%elem_of_cons; [simpl; intros; lra | by apply Hall].
        -- destruct Hor as [?|(d & Hd & ?)]; [by left | right; exists d].
           split; [by right | done].
    + destruct (IH lowest next Hwf) as (l' & n' & -> & Hle & Hall & Hor).
      exists l', n'. split_and!; [done | done | |].
      * intros d [->|Hd]%elem_of_cons; [|by apply Hall].
        simpl. intros Hin Hnp. exfalso.
        apply andb_false_iff in Hc as [Hc|Hc].
        -- by apply in_bounds_outside in Hc.
        -- by apply bool_decide_eq_false in Hc.
      * destruct Hor as [?|(d & Hd & ?)]; [by left | right; exists d].
        split; [by right | done].
Qed.

(** One iteration of the [while] loop, seen from the cell it stands on:
    either no candidate exists and the scan leaves [next] at [None], or
    the scan ends on a lowest candidate. *)
Lemma downhill_scan_offsets elev path y x :
  wf elev → (y, x) ∈ path →
  ∃ lowest' next',
    downhill_scan elev path y x offsets (at_ elev (y, x)) None = Return (lowest', next') ∧
    match next' with
    | None => ∀ n, ¬ candidate elev path (y, x) n
    | Some nxt =>
        candidate elev path (y, x) nxt ∧
        ∀ n, candidate elev path (y, x) n → (at_ elev nxt <= at_ elev n)%Q
    end.
Proof.
  intros Hwf Hcur.
  destruct (downhill_scan_spec elev path y x offsets (at_ elev (y, x)) None Hwf)
    as (l' & n' & Hscan & Hle & Hall & Hor).
  exists l', n'. split; [done|].
  assert (∀ n, candidate elev path (y, x) n → (l' <= at_ elev n)%Q) as Hmin.
  { intros n (Hn & Hin & Hnp & _).
    destruct (proj2 (offsets_reach (y, x) n) (or_intror Hn)) as (d & Hd & ->).
    by apply Hall. }
  destruct Hor as [[-> ->]|(d & Hd & -> & Hin & Hnp & -> & Hlt)].
  - intros n Hn. pose proof (Hmin n Hn). destruct Hn as (_ & _ & _ & ?). lra.
  - split; [|done]. split_and!; [|done..].
    destruct (proj1 (offsets_reach (y, x) (y + d.1, x + d.2))) as [Heq|]; [by eauto| |done].
    simpl in Heq. congruence.
Qed.

Lemma downhill_loop_spec elev : ∀ fuel path y x,
  wf elev → inside elev (y, x) →
  NoDup (path ++ [(y, x)]) → (∀ c, c ∈ path → inside elev c) →
  (shape0 elev * shape1 elev ≤ fuel + length path)%nat →
  ∃ rest,
    downhill_loop fuel elev path y x = Return (path ++ (y, x) :: rest) ∧
    descent elev path (y, x) rest ∧
    NoDup (path ++ (y, x) :: rest) ∧
    (∀ c, c ∈ rest → inside elev c).
Proof.
  induction fuel as [|fuel IH]; intros path y x Hwf Hin Hnd Hpath Hfuel.
  - exfalso.
    assert (length (path ++ [(y, x)]) ≤ shape0 elev * shape1 elev)%nat as Hlen.
    { apply distinct_cells_length; [done|].
      intros c [? | ->%list_elem_of_singleton]%elem_of_app; auto. }
    rewrite length_app in Hlen. simpl in *. lia.
  - destruct (downhill_scan_offsets elev (path ++ [(y, x)]) y x Hwf)
      as (l' & n' & Hscan & Hpost).
    { apply elem_of_app. right. by apply list_elem_of_singleton. }
    assert (downhill_loop (S fuel) elev path y x =
            match n' with
            | Some (ny, nx) =>
                if Qle_bool (at_ elev (y, x)) (at_ elev (ny, nx))
                then Return (path ++ [(y, x)])
                else downhill_loop fuel elev (path ++ [(y, x)]) ny nx
            | None => Return (path ++ [(y, x)])
            end) as ->.
    { cbn [downhill_loop]. rewrite (getitem_inside _ _ _ Hwf Hin). bind_simpl.
      rewrite Hscan. bind_simpl. cbn [snd]. destruct n' as [[ny nx]|]; [|done].
      destruct Hpost as [(_ & Hnin & _) _].
      by rewrite (getitem_inside _ _ _ Hwf Hnin). }
    destruct n' as [[ny nx]|].
    + destruct Hpost as [Hcand Hmin].
      pose proof Hcand as (Hn & Hnin & Hnp & Hlt).
      assert (Qle_bool (at_ elev (y, x)) (at_ elev (ny, nx)) = false) as ->.
      { apply not_true_iff_false. rewrite Qle_bool_iff. lra. }
      destruct (IH (path ++ [(y, x)]) ny nx Hwf Hnin) as (rest & Hloop & Hdesc & Hnd' & Hrest).
      * apply NoDup_app. split_and!; [done | | apply NoDup_singleton].
        intros c Hc ->%list_elem_of_singleton. done.
      * intros c [? | ->%list_elem_of_singleton]%elem_of_app; auto.
      * rewrite length_app. simpl. lia.
      * exists ((ny, nx) :: rest). rewrite <- app_assoc in Hloop, Hnd'. simpl in *.
        split_and!; [done | by eapply descent_step | done |].
        intros c [->|?]%elem_of_cons; auto.
    + exists []. split_and!; [done | by apply descent_stop | done |].
      intros c Hc. by apply elem_of_nil in Hc.
Qed.

Lemma find_downhill_water_path_descent elev y x :
  wf elev → inside elev (y, x) →
  ∃ rest,
    find_downhill_water_path (shape0 elev * shape1 elev) y x elev = Return ((y, x) :: rest) ∧
    descent elev [] (y, x) rest ∧
    NoDup ((y, x) :: rest) ∧
    (∀ c, c ∈ rest → inside elev c).
Proof.
  intros Hwf Hin. unfold find_downhill_water_path.
  apply (downhill_loop_spec elev _ [] y x Hwf Hin).
  - apply NoDup_singleton.
  - intros c Hc. by apply elem_of_nil in Hc.
  - simpl. lia.
Qed.

(** C1. From an in-bounds start the tracer comes back within
    [width * height] iterations of its loop, and the path it returns has
    no repeated cell (so it is no longer than [width * height]). *)
Theorem find_downhill_water_path_terminates elev y x :
  wf elev → inside elev (y, x) →
  ∃ path,
    find_downhill_water_path (shape0 elev * shape1 elev) y x elev = Return path ∧
    NoDup path ∧
    (length path ≤ shape0 elev * shape1 elev)%nat.
Proof.
  intros Hwf Hin.
  destruct (find_downhill_water_path_descent elev y x Hwf Hin) as (rest & Hp & _ & Hnd & Hrest).
  exists ((y, x) :: rest). split_and!; [done | done |].
  apply distinct_cells_length; [done|].
  intros c [->|?]%elem_of_cons; auto.
Qed.

Lemma descent_moves elev path cur rest :
  descent elev path cur rest →
  ∀ pre c n post, cur :: rest = pre ++ c :: n :: post →
    candidate elev (path ++ pre ++ [c]) c n ∧
    ∀ n', candidate elev (path ++ pre ++ [c]) c n' → (at_ elev n <= at_ elev n')%Q.
Proof.
  induction 1 as [path cur Hstop|path cur nxt rest Hcand Hmin Hdesc IH];
    intros pre c n post Heq.
  - destruct pre as [|? [|??]]; done.
  - destruct pre as [|c0 pre]; simpl in Heq.
    + injection Heq as -> -> ->. done.
    + injection Heq as -> Heq. specialize (IH _ _ _ _ Heq).
      by rewrite <- app_assoc in IH.
Qed.

Lemma descent_end elev path cur rest :
  descent elev path cur rest →
  ∀ pre l, cur :: rest = pre ++ [l] →
    ∀ n, ¬ candidate elev (path ++ cur :: rest) l n.
Proof.
  induction 1 as [path cur Hstop|path cur nxt rest Hcand Hmin Hdesc IH];
    intros pre l Heq.
  - destruct pre as [|? [|??]]; [|done..]. injection Heq as ->. done.
  - destruct pre as [|c0 pre]; [done|]. simpl in Heq. injection Heq as -> Heq.
    specialize (IH _ _ Heq). by rewrite <- app_assoc in IH.
Qed.

(** C3. The path returned for an in-bounds start begins with the start;
    every move goes from a cell to an in-bounds 8-neighbour that is
    strictly lower, not yet on the path, and lowest among the cells of
    that kind; and around the last cell of the path no such neighbour is
    left.  A start without such a neighbour gives the path made of the
    start alone. *)
Theorem find_downhill_water_path_steepest elev y x :
  wf elev → inside elev (y, x) →
  ∃ rest,
    find_downhill_water_path (shape0 elev * shape1 elev) y x elev
      = Return ((y, x) :: rest) ∧
    (∀ pre c n post, (y, x) :: rest = pre ++ c :: n :: post →
       candidate elev (pre ++ [c]) c n ∧
       ∀ n', candidate elev (pre ++ [c]) c n' → (at_ elev n <= at_ elev n')%Q) ∧
    (∀ pre l, (y, x) :: rest = pre ++ [l] →
       ∀ n, ¬ candidate elev ((y, x) :: rest) l n) ∧
    ((∀ n, ¬ candidate elev [(y, x)] (y, x) n) → rest = []).
Proof.
  intros Hwf Hin.
  destruct (find_downhill_water_path_descent elev y x Hwf Hin) as (rest & Hp & Hdesc & _).
  exists rest. split_and!; [done | | |].
  - intros pre c n post Heq. by apply (descent_moves _ _ _ _ Hdesc pre c n post).
  - intros pre l Heq. by apply (descent_end _ _ _ _ Hdesc pre l).
  - intros Hnone. inversion Hdesc as [|? ? nxt ? Hcand]; [done|]. subst.
    by apply Hnone in Hcand.
Qed.

(** ** Lake Expander: what it writes *)

Lemma lake_mark_nonzero : ¬ (lake_mark == 0)%Q.
Proof. unfold lake_mark. lra. Qed.

Lemma lake_writes_refl r : lake_writes r r.
Proof. unfold lake_writes. split_and!; [done..|]. eauto. Qed.

Lemma lake_writes_trans r1 r2 r3 :
  lake_writes r1 r2 → lake_writes r2 r3 → lake_writes r1 r3.
Proof.
  intros (? & ? & ? & H12) (? & ? & ? & H23).
  split_and!; [congruence..|].
  intros i v Hv. destruct (H12 i v Hv) as [Hi|[Hz Hi]].
  - apply H23 in Hi. done.
  - apply H23 in Hi as [Hi|[Hm _]]; [by right|].
    exfalso. by apply lake_mark_nonzero.
Qed.

Lemma setitem_Return r y x v r' :
  setitem r y x v = Return r' →
  ∃ i, flat_index r y x = Some i ∧ (i < length (data r))%nat ∧
       r' = mk_ndarray (shape0 r) (shape1 r) (<[i:=v]> (data r)).
Proof.
  unfold setitem. destruct (flat_index r y x) as [i|]; [|done].
  case_decide; [|done]. intros [= <-]. eauto.
Qed.

Lemma getitem_Return r y x v :
  getitem r y x = Return v ↔ ∃ i, flat_index r y x = Some i ∧ data r !! i = Some v.
Proof.
  unfold getitem. destruct (flat_index r y x) as [i|].
  - destruct (data r !! i) as [u|] eqn:E.
    + split; [intros [= <-]; eauto | intros (? & [= <-] & ?); congruence].
    + split; [done | intros (? & [= <-] & ?); congruence].
  - split; [done | intros (? & [=] & _)].
Qed.

Lemma lake_admit_not_Timeout elev start ld mg ny nx st :
  lake_admit elev start ld mg ny nx st ≠ Timeout.
Proof.
  unfold lake_admit. destruct (in_bounds elev ny nx); [|done].
  destruct (getitem elev ny nx) as [e| |] eqn:He; bind_simpl; [|done|by apply getitem_not_Timeout in He].
  destruct (_ && _); [|done].
  destruct (getitem st.1 ny nx) as [v| |] eqn:Hv; bind_simpl; [|done|by apply getitem_not_Timeout in Hv].
  destruct (Qeq_bool v 0); [|done].
  destruct (setitem st.1 ny nx lake_mark) eqn:Hs; bind_simpl; [done|done|].
  by apply setitem_not_Timeout in Hs.
Qed.

(** One neighbour: the river map changes by at most one write of the lake
    mark over a zero, and the queue grows by at most that neighbour, which
    is in bounds. *)
Lemma lake_admit_Return elev start ld mg ny nx st st' :
  lake_admit elev start ld mg ny nx st = Return st' →
  lake_writes st.1 st'.1 ∧
  (st'.2 = st.2 ∨ (st'.2 = st.2 ++ [(ny, nx)] ∧ inside elev (ny, nx))).
Proof.
  unfold lake_admit. destruct (in_bounds elev ny nx) eqn:Hin.
  2:{ intros [= <-]. split; [apply lake_writes_refl | by left]. }
  apply in_bounds_inside in Hin.
  destruct (getitem elev ny nx) as [e| |]; bind_simpl; [|done..].
  destruct (_ && _).
  2:{ intros [= <-]. split; [apply lake_writes_refl | by left]. }
  destruct (getitem st.1 ny nx) as [v| |] eqn:Hv; bind_simpl; [|done..].
  destruct (Qeq_bool v 0) eqn:Hz.
  - destruct (setitem st.1 ny nx lake_mark) as [r'| |] eqn:Hs; bind_simpl; [|done..].
    intros [= <-]. simpl. split; [|by right].
    apply setitem_Return in Hs as (i & Hi & Hlt & ->).
    apply getitem_Return in Hv as (i' & Hi' & Hv). rewrite Hi in Hi'. injection Hi' as <-.
    apply Qeq_bool_iff in Hz.
    unfold lake_writes. simpl. split_and!; [done | done | by rewrite length_insert |].
    intros j u Hu. destruct (decide (i = j)) as [<-|Hne].
    + right. rewrite list_lookup_insert_eq by done. split; [|done]. congruence.
    + left. by rewrite list_lookup_insert_ne.
  - intros [= <-]. simpl. split; [apply lake_writes_refl | by right].
Qed.

Lemma lake_scan_spec elev start ld mg cy cx offs : ∀ st,
  let r := lake_scan elev start ld mg cy cx offs st in
  r.1 ≠ Timeout ∧
  lake_writes st.1 r.2.1 ∧
  ∃ added, r.2.2 = st.2 ++ added ∧ (length added ≤ length offs)%nat ∧
           ∀ c, c ∈ added → inside elev c.
Proof.
  induction offs as [|[dy dx] rest IH]; intros st; simpl.
  - split_and!; [done | apply lake_writes_refl |].
    exists []. rewrite app_nil_r. split_and!; [done..|].
    intros c Hc. by apply elem_of_nil in Hc.
  - destruct (lake_admit elev start ld mg (cy + dy) (cx + dx) st) as [st'| |] eqn:Ha.
    + apply lake_admit_Return in Ha as [Hw Hq].
      destruct (IH st') as (Hnt & Hw' & added & Hadd & Hlen & Hin).
      split_and!; [done | by eapply lake_writes_trans |].
      destruct Hq as [Hq|[Hq Hn]]; rewrite Hq in Hadd.
      * exists added. split_and!; [done | lia | done].
      * exists ((cy + dy, cx + dx) :: added). rewrite <- app_assoc in Hadd.
        split_and!; [done | simpl; lia |].
        intros c [->|?]%elem_of_cons; auto.
    + simpl. split_and!; [done | apply lake_writes_refl |].
      exists []. rewrite app_nil_r. split_and!; [done | simpl; lia |].
      intros c Hc. by apply elem_of_nil in Hc.
    + by apply lake_admit_not_Timeout in Ha.
Qed.

Lemma lake_loop_writes elev start ld mg : ∀ fuel queue visited river,
  lake_writes river (lake_loop fuel elev start ld mg queue visited river).2.
Proof.
  induction fuel as [|fuel IH]; intros [|[cy cx] queue] visited river;
    cbn [lake_loop]; try apply lake_writes_refl.
  destruct (bool_decide ((cy, cx) ∈ visited)); [apply IH|].
  pose proof (lake_scan_spec elev start ld mg cy cx offsets (river, queue)) as (_ & Hw & _).
  destruct (lake_scan elev start ld mg cy cx offsets (river, queue)) as [[u| |] [river' queue']];
    simpl in *; [|done..].
  eapply lake_writes_trans; [done | apply IH].
Qed.

Lemma expand_lake_writes fuel y x elev river ld mg :
  lake_writes river (expand_lake fuel y x elev river ld mg).2.
Proof.
  unfold expand_lake. destruct (getitem elev y x); simpl;
    [apply lake_loop_writes | apply lake_writes_refl..].
Qed.

(** [lake_writes] read through [getitem]. *)
Lemma lake_writes_getitem r r' y x v :
  lake_writes r r' → getitem r y x = Return v →
  getitem r' y x = Return v ∨ ((v == 0)%Q ∧ getitem r' y x = Return lake_mark).
Proof.
  intros (H0 & H1 & _ & Hw) (i & Hi & Hv)%getitem_Return.
  assert (flat_index r' y x = Some i) as Hi' by (unfold flat_index in *; by rewrite H0, H1).
  destruct (Hw i v Hv) as [H|[Hz H]]; [left|right; split; [done|]];
    apply getitem_Return; eauto.
Qed.

(** ** Lake Expander: termination *)

(** The loop ends within [length queue + 9 * (cells not yet visited)]
    iterations: a skipped entry shortens the queue, and a visit takes one
    cell out of the unvisited ones for at most nine new entries. *)
Lemma lake_loop_terminates (elev : ndarray) (start ld mg : Q) (U : gset (Z * Z)) :
  (∀ c, inside elev c → c ∈ U) →
  ∀ (fuel : nat) (queue : list (Z * Z)) (visited : gset (Z * Z)) (river : ndarray),
    (∀ c, c ∈ queue → c ∈ U) →
    (length queue + 9 * size (U ∖ visited) ≤ fuel)%nat →
    (lake_loop fuel elev start ld mg queue visited river).1 ≠ Timeout.
Proof.
  intros HU. induction fuel as [|fuel IH]; intros [|[cy cx] queue] visited river Hq Hfuel;
    cbn [lake_loop]; try done.
  { simpl in Hfuel. lia. }
  destruct (bool_decide ((cy, cx) ∈ visited)) eqn:Hvis.
  - apply IH.
    + intros c Hc. apply Hq. by right.
    + simpl in Hfuel. lia.
  - apply bool_decide_eq_false in Hvis.
    pose proof (lake_scan_spec elev start ld mg cy cx offsets (river, queue))
      as (Hnt & _ & added & Hadd & Hlen & Hin).
    destruct (lake_scan elev start ld mg cy cx offsets (river, queue))
      as [[u| |] [river' queue']]; simpl in *; [|done..].
    subst queue'. apply IH.
    + intros c [Hc|Hc]%elem_of_app; [apply Hq; by right | auto].
    + assert ((cy, cx) ∈ U) as HcU by (apply Hq; by left).
      assert (size (U ∖ ({[(cy, cx)]} ∪ visited)) < size (U ∖ visited))%nat.
      { apply subset_size. split.
        - intros c [Hc Hv]%elem_of_difference. apply elem_of_difference.
          split; [done|]. intros Hc'. apply Hv, elem_of_union. by right.
        - intros Hsub. specialize (Hsub (cy, cx)).
          rewrite !elem_of_difference, elem_of_union, elem_of_singleton in Hsub.
          destruct Hsub as [_ Hsub]; [done|]. apply Hsub. by left. }
      rewrite length_app. change (length offsets) with 9%nat in Hlen. lia.
Qed.

Lemma expand_lake_terminates fuel y x elev river ld mg :
  (lake_fuel elev ≤ fuel)%nat →
  (expand_lake fuel y x elev river ld mg).1 ≠ Timeout.
Proof.
  intros Hfuel. unfold expand_lake.
  destruct (getitem elev y x) as [start| |] eqn:Hs; simpl; [|done|by apply getitem_not_Timeout in Hs].
  apply (lake_loop_terminates elev start ld mg (list_to_set (cells elev) ∪ {[ (y, x) ]})).
  - intros c Hc. apply elem_of_union. left. apply elem_of_list_to_set. by apply elem_of_cells.
  - intros c ->%list_elem_of_singleton. apply elem_of_union. right.
    by apply elem_of_singleton.
  - assert (size (list_to_set (cells elev) ∪ {[(y, x)]} : gset (Z * Z))
            ≤ shape0 elev * shape1 elev + 1)%nat as Hsize.
    { rewrite size_union_alt, size_list_to_set by apply NoDup_cells.
      rewrite length_cells.
      assert (size ({[(y, x)]} ∖ list_to_set (cells elev) : gset (Z * Z)) ≤ 1)%nat; [|lia].
      rewrite <- (size_singleton (C := gset (Z * Z)) (y, x)).
      apply subseteq_size. intros c Hc. by apply elem_of_difference in Hc as [? _]. }
    rewrite difference_empty_L. unfold lake_fuel in Hfuel. simpl. lia.
Qed.

(** ** Lake Expander: no error on well-formed arguments *)

Lemma lake_writes_wf r r' : lake_writes r r' → wf r → wf r'.
Proof. unfold wf. intros (-> & -> & -> & _). done. Qed.

Lemma lake_writes_same_shape r r' a :
  lake_writes r r' → same_shape r a → same_shape r' a.
Proof. unfold same_shape. intros (-> & -> & _). done. Qed.

Lemma setitem_inside r y x v :
  wf r → inside r (y, x) → ∃ r', setitem r y x v = Return r'.
Proof.
  intros Hwf Hin. unfold setitem.
  pose proof (flat_index_inside _ _ _ Hin) as Hi. rewrite Hi.
  apply flat_index_lt in Hi. rewrite decide_True by (rewrite Hwf; lia). eauto.
Qed.

Lemma inside_same_shape a b c : same_shape a b → inside b c → inside a c.
Proof. unfold same_shape, inside. intros [-> ->]. done. Qed.

Lemma lake_admit_returns elev start ld mg ny nx st :
  wf elev → wf st.1 → same_shape st.1 elev →
  ∃ st', lake_admit elev start ld mg ny nx st = Return st'.
Proof.
  intros Hwf Hwfr Hsh. unfold lake_admit.
  destruct (in_bounds elev ny nx) eqn:Hin; [|eauto].
  apply in_bounds_inside in Hin. rewrite (getitem_inside _ _ _ Hwf Hin). bind_simpl.
  destruct (_ && _); [|eauto].
  pose proof (inside_same_shape _ _ _ Hsh Hin) as Hinr.
  rewrite (getitem_inside _ _ _ Hwfr Hinr). bind_simpl.
  destruct (Qeq_bool _ 0); bind_simpl; [|eauto].
  destruct (setitem_inside st.1 ny nx lake_mark Hwfr Hinr) as (r' & ->). bind_simpl. eauto.
Qed.

Lemma lake_scan_returns elev start ld mg cy cx offs : ∀ st,
  wf elev → wf st.1 → same_shape st.1 elev →
  (lake_scan elev start ld mg cy cx offs st).1 = Return ().
Proof.
  induction offs as [|[dy dx] rest IH]; intros st Hwf Hwfr Hsh; simpl; [done|].
  destruct (lake_admit_returns elev start ld mg (cy + dy) (cx + dx) st Hwf Hwfr Hsh)
    as (st' & Ha).
  rewrite Ha. apply lake_admit_Return in Ha as [Hw _].
  apply IH; [done | by eapply lake_writes_wf | by eapply lake_writes_same_shape].
Qed.

Lemma lake_loop_no_raise elev start ld mg : ∀ fuel queue visited river e,
  wf elev → wf river → same_shape river elev →
  (lake_loop fuel elev start ld mg queue visited river).1 ≠ Raise e.
Proof.
  induction fuel as [|fuel IH]; intros [|[cy cx] queue] visited river e Hwf Hwfr Hsh;
    cbn [lake_loop]; try done.
  destruct (bool_decide ((cy, cx) ∈ visited)); [by apply IH|].
  pose proof (lake_scan_returns elev start ld mg cy cx offsets (river, queue) Hwf Hwfr Hsh)
    as Hret.
  pose proof (lake_scan_spec elev start ld mg cy cx offsets (river, queue)) as (_ & Hw & _).
  destruct (lake_scan elev start ld mg cy cx offsets (river, queue))
    as [[u| |] [river' queue']]; simpl in *; [|done..].
  apply IH; [done | by eapply lake_writes_wf | by eapply lake_writes_same_shape].
Qed.

(** With an elevation map and a river map of one shape, a seed in bounds
    and the fuel of [lake_fuel], the flood fill returns. *)
Lemma expand_lake_returns fuel y x elev river ld mg :
  wf elev → wf river → same_shape river elev → inside elev (y, x) →
  (lake_fuel elev ≤ fuel)%nat →
  (expand_lake fuel y x elev river ld mg).1 = Return ().
Proof.
  intros Hwf Hwfr Hsh Hin Hfuel.
  pose proof (expand_lake_terminates fuel y x elev river ld mg Hfuel) as Hnt.
  unfold expand_lake in *. rewrite (getitem_inside _ _ _ Hwf Hin) in *.
  pose proof (lake_loop_no_raise elev (at_ elev (y, x)) ld mg fuel [(y, x)] ∅ river) as Hnr.
  destruct (lake_loop fuel elev (at_ elev (y, x)) ld mg [(y, x)] ∅ river) as [[[]| |] r'];
    simpl in *; [done | by edestruct Hnr | done].
Qed.

Lemma expand_lake_kept fuel y x elev river ld mg cy cx v :
  getitem river cy cx = Return v → ¬ (v == 0)%Q →
  getitem (expand_lake fuel y x elev river ld mg).2 cy cx = Return v.
Proof.
  intros Hv Hnz. pose proof (expand_lake_writes fuel y x elev river ld mg) as Hw.
  destruct (lake_writes_getitem _ _ _ _ _ Hw Hv) as [?|[? _]]; done.
Qed.

Lemma expand_lake_changed fuel y x elev river ld mg cy cx v v' :
  getitem river cy cx = Return v →
  getitem (expand_lake fuel y x elev river ld mg).2 cy cx = Return v' →
  v' ≠ v → (v == 0)%Q ∧ v' = lake_mark.
Proof.
  intros Hv Hv' Hne. pose proof (expand_lake_writes fuel y x elev river ld mg) as Hw.
  destruct (lake_writes_getitem _ _ _ _ _ Hw Hv) as [H|[Hz H]];
    rewrite H in Hv'; injection Hv' as <-; done.
Qed.

(** C2. Whatever the arguments, a call of [expand_lake] leaves every
    nonzero cell of the river map as it was; a cell whose value differs
    after the call held zero before and holds the lake mark after; and the
    call comes to an end (with the fuel of [lake_fuel], or more, the
    loop never runs out). *)
Theorem expand_lake_keeps_rivers fuel y x elev river ld mg :
  let after := (expand_lake fuel y x elev river ld mg).2 in
  (∀ cy cx v, getitem river cy cx = Return v → ¬ (v == 0)%Q →
              getitem after cy cx = Return v) ∧
  (∀ cy cx v v', getitem river cy cx = Return v → getitem after cy cx = Return v' →
                 v' ≠ v → (v == 0)%Q ∧ v' = lake_mark) ∧
  (∀ fuel', (lake_fuel elev ≤ fuel')%nat →
            (expand_lake fuel' y x elev river ld mg).1 ≠ Timeout).
Proof.
  intros after. split_and!.
  - intros cy cx v. apply expand_lake_kept.
  - intros cy cx v v'. apply expand_lake_changed.
  - intros fuel'. apply expand_lake_terminates.
Qed.

(** ** River Compositor *)

Lemma getitem_setitem r y x v r' :
  setitem r y x v = Return r' → getitem r' y x = Return v.
Proof.
  intros (i & Hi & Hlt & ->)%setitem_Return. apply getitem_Return.
  exists i. split; [done|]. simpl. by apply list_lookup_insert_eq.
Qed.

(** The cell walked last holds the width the walk ended with. *)
Lemma river_walk_last water path : ∀ y x w0 river river' width,
  river_walk water (path ++ [(y, x)]) w0 river = Return (river', width) →
  getitem river' y x = Return width.
Proof.
  induction path as [|[py px] path IH]; intros y x w0 river river' width; simpl.
  - intros (w & _ & H)%bind_Return_inv.
    apply bind_Return_inv in H as (r1 & Hset & [= <- <-]).
    by apply getitem_setitem in Hset.
  - intros (w & _ & H)%bind_Return_inv.
    apply bind_Return_inv in H as (r1 & _ & H). by apply IH in H.
Qed.


(** ** Standalone lake seeds *)

Lemma local_min_scan_spec elev m y x offs :
  wf elev →
  ∃ b, local_min_scan elev m y x offs = Return b ∧
    (b = true ↔ ∀ d, d ∈ offs → inside elev (y + d.1, x + d.2) →
                   ¬ Qlt (at_ elev (y + d.1, x + d.2)) m).
Proof.
  intros Hwf. induction offs as [|[dy dx] rest (b & IH & Hb)]; simpl.
  - exists true. split; [done|]. split; [|done]. intros _ d Hd. by apply elem_of_nil in Hd.
  - destruct (in_bounds elev (y + dy) (x + dx)) eqn:Hin.
    + apply in_bounds_inside in Hin. rewrite (getitem_inside _ _ _ Hwf Hin). bind_simpl.
      destruct (Qlt_bool (at_ elev (y + dy, x + dx)) m) eqn:Hlt.
      * exists false. split; [done|]. split; [done|]. intros H. exfalso.
        apply Qlt_bool_iff in Hlt. eapply (H (dy, dx)); [by left | done | done].
      * exists b. split; [done|]. rewrite Hb. split.
        -- intros H d [->|Hd]%elem_of_cons; [|by apply H].
           intros _. simpl. apply Qlt_bool_false in Hlt. lra.
        -- intros H d Hd. apply H. by right.
    + exists b. split; [done|]. rewrite Hb. split.
      * intros H d [->|Hd]%elem_of_cons; [|by apply H].
        intros Hins. apply in_bounds_outside in Hin. done.
      * intros H d Hd. apply H. by right.
Qed.

(** [is_local_minimum] answers [True] exactly when no in-bounds neighbour
    is strictly lower; a neighbour of equal elevation does not matter. *)
Lemma is_local_minimum_spec elev y x :
  wf elev → inside elev (y, x) →
  ∃ b, is_local_minimum y x elev = Return b ∧
    (b = true ↔ ∀ n, neighbor8 (y, x) n → inside elev n →
                   ¬ (at_ elev n < at_ elev (y, x))%Q).
Proof.
  intros Hwf Hin. unfold is_local_minimum. rewrite (getitem_inside _ _ _ Hwf Hin). bind_simpl.
  destruct (local_min_scan_spec elev (at_ elev (y, x)) y x offsets Hwf) as (b & -> & Hb).
  exists b. split; [done|]. rewrite Hb. split.
  - intros H n Hn Hins.
    destruct (proj2 (offsets_reach (y, x) n) (or_intror Hn)) as (d & Hd & ->).
    simpl in *. by apply H.
  - intros H d Hd Hins.
    destruct (proj1 (offsets_reach (y, x) (y + d.1, x + d.2))) as [Heq|Hn]; [by eauto| |].
    + simpl in Heq. rewrite Heq. lra.
    + by apply H.
Qed.

Lemma lakes_loop_spec elev fuel :
  wf elev → (lake_fuel elev ≤ fuel)%nat →
  ∀ cs lakes seeds,
    wf lakes → same_shape lakes elev → (∀ c, c ∈ cs → inside elev c) →
    ∃ lakes' seeds',
      lakes_loop fuel elev cs lakes seeds = Return (lakes', seeds') ∧
      lake_writes lakes lakes' ∧
      ∀ c, c ∈ seeds' ↔
           c ∈ seeds ∨ (c ∈ cs ∧ is_local_minimum c.1 c.2 elev = Return true).
Proof.
  intros Hwf Hfuel. induction cs as [|[y x] rest IH]; intros lakes seeds Hwfl Hsh Hin; simpl.
  - exists lakes, seeds. split_and!; [done | apply lake_writes_refl |].
    intros c. rewrite elem_of_nil. tauto.
  - assert (inside elev (y, x)) as Hyx by (apply Hin; by left).
    assert (∀ c, c ∈ rest → inside elev c) as Hrest by (intros c Hc; apply Hin; by right).
    destruct (is_local_minimum_spec elev y x Hwf Hyx) as (b & Hb & _).
    rewrite Hb. bind_simpl. destruct b.
    + pose proof (expand_lake_returns fuel y x elev lakes 50 50 Hwf Hwfl Hsh Hyx Hfuel) as Hret.
      pose proof (expand_lake_writes fuel y x elev lakes 50 50) as Hw.
      unfold returned. rewrite Hret. bind_simpl.
      destruct (IH (expand_lake fuel y x elev lakes 50 50).2 (seeds ++ [(y, x)]))
        as (lakes' & seeds' & -> & Hw' & Hspec);
        [by eapply lake_writes_wf | by eapply lake_writes_same_shape | done |].
      exists lakes', seeds'. split_and!; [done | by eapply lake_writes_trans |].
      intros c. rewrite Hspec, elem_of_app, list_elem_of_singleton, elem_of_cons. split.
      * intros [[?| ->]|[??]]; eauto.
      * intros [?|[[->|?] ?]]; eauto.
    + destruct (IH lakes seeds) as (lakes' & seeds' & -> & Hw' & Hspec); [done..|].
      exists lakes', seeds'. split_and!; [done | done |].
      intros c. rewrite Hspec, elem_of_cons. split.
      * intros [?|[??]]; eauto.
      * intros [?|[[->|?] ?]]; eauto. simpl in *. congruence.
Qed.

(** C5 (amended). [generate_lakes] calls [expand_lake] at a cell exactly
    when the cell is a local minimum in the weak sense: no in-bounds
    8-neighbour is strictly lower (neighbours of equal elevation are
    allowed). *)
Theorem generate_lakes_seeds elev river :
  wf elev → wf river → same_shape river elev →
  ∃ lakes seeds,
    generate_lakes_seeded (lake_fuel elev) elev river = Return (lakes, seeds) ∧
    ∀ c, c ∈ seeds ↔
         inside elev c ∧
         ∀ n, neighbor8 c n → inside elev n → ¬ (at_ elev n < at_ elev c)%Q.
Proof.
  intros Hwf Hwfr Hsh. unfold generate_lakes_seeded.
  destruct (lakes_loop_spec elev (lake_fuel elev) Hwf (le_n _) (cells elev) (copy river) [])
    as (lakes & seeds & Hrun & _ & Hspec); [done | done | |].
  { intros c. apply elem_of_cells. }
  exists lakes, seeds. split; [done|]. intros [y x]. rewrite Hspec, elem_of_nil, elem_of_cells.
  split.
  - intros [[]|[Hin Hmin]]. split; [done|].
    destruct (is_local_minimum_spec elev y x Hwf Hin) as (b & Hb & Hiff).
    simpl in Hmin. rewrite Hmin in Hb. injection Hb as <-. by apply Hiff.
  - intros [Hin Hmin]. right. split; [done|].
    destruct (is_local_minimum_spec elev y x Hwf Hin) as (b & Hb & Hiff).
    simpl. rewrite Hb. f_equal. by apply Hiff.
Qed.

(** ** Configuration out of range *)

Lemma np_percentile_out_of_range a q :
  ¬ (0 <= q <= 100)%Q → np_percentile a q = Raise ValueError.
Proof.
  intros Hq. unfold np_percentile.
  destruct (Qle_bool 0 q && Qle_bool q 100) eqn:Hc; [|done].
  apply andb_true_iff in Hc as [H0%Qle_bool_iff H1%Qle_bool_iff]. tauto.
Qed.

(** C6 (amended). A percentile outside [0, 100] makes
    [find_water_sources] fail with the [ValueError] of the percentile
    computation.  [expand_lake] checks nothing: for every [lake_depth] and
    [max_gradient], negative ones too, it returns normally on a seed in
    bounds and a river map of the shape of the elevation map. *)
Theorem configuration_out_of_range :
  (∀ elev percentile,
     ¬ (0 <= percentile <= 100)%Q →
     find_water_sources elev percentile = Raise ValueError) ∧
  (∀ fuel y x elev river (lake_depth max_gradient : Q),
     wf elev → wf river → same_shape river elev → inside elev (y, x) →
     (lake_fuel elev ≤ fuel)%nat →
     (expand_lake fuel y x elev river lake_depth max_gradient).1 = Return ()).
Proof.
  split.
  - intros elev percentile Hq. unfold find_water_sources.
    by rewrite np_percentile_out_of_range.
  - intros. by apply expand_lake_returns.
Qed.

(** ** Degenerate grids *)

Lemma degenerate_data a :
  wf a → (shape0 a = 0 ∨ shape1 a = 0)%nat → data a = [].
Proof. unfold wf. intros Hwf Hd. apply nil_length_inv. lia. Qed.

Lemma degenerate_cells a : (shape0 a = 0 ∨ shape1 a = 0)%nat → cells a = [].
Proof. intros Hd. apply nil_length_inv. rewrite length_cells. lia. Qed.

Lemma np_percentile_empty q : ∃ e, np_percentile [] q = Raise e.
Proof. unfold np_percentile. destruct (negb _); simpl; eauto. Qed.

(** C7 (amended). On a grid of width 0 or height 0, [generate_water]
    gives the empty mask, [generate_rivers] over no source gives the empty
    river map, [generate_lakes] gives a copy of the river map it was
    given, and the merge gives a copy of the empty elevation map, all
    without failing; [find_water_sources] fails, in the percentile of no
    data. *)
Theorem degenerate_grid_outputs elev :
  wf elev → (shape0 elev = 0 ∨ shape1 elev = 0)%nat →
  (∀ level, generate_water elev level = mk_ndarray (shape0 elev) (shape1 elev) []) ∧
  (∀ fuel water,
     generate_rivers fuel elev water [] = Return (mk_ndarray (shape0 elev) (shape1 elev) [])) ∧
  (∀ fuel river, generate_lakes fuel elev river = Return (copy river)) ∧
  (∀ river, generate_merged_elevation_and_river_map elev river
            = Return (mk_ndarray (shape0 elev) (shape1 elev) [])) ∧
  (∀ percentile, ∃ e, find_water_sources elev percentile = Raise e).
Proof.
  intros Hwf Hd.
  pose proof (degenerate_data elev Hwf Hd) as Hdata.
  pose proof (degenerate_cells elev Hd) as Hcells.
  split_and!.
  - intros level. unfold generate_water. by rewrite Hdata.
  - intros fuel water. unfold generate_rivers, zeros. simpl.
    replace (shape0 elev * shape1 elev)%nat with 0%nat by lia. done.
  - intros fuel river. unfold generate_lakes, generate_lakes_seeded. by rewrite Hcells.
  - intros river. unfold generate_merged_elevation_and_river_map, copy.
    by rewrite Hcells, Hdata.
  - intros percentile. unfold find_water_sources. rewrite Hdata.
    destruct (np_percentile_empty percentile) as (e & ->). eauto.
Qed.

(** ** Scenario: a slope from corner to corner *)

Section Slope.
Variable elev : ndarray.
Variables sy sx : Z.
Hypothesis Hsy : sy = 1 ∨ sy = -1.
Hypothesis Hsx : sx = 1 ∨ sx = -1.

Lemma ahead_antisym a b : ahead sy sx a b → ahead sy sx b a → a = b.
Proof.
  destruct a, b. unfold ahead. simpl. intros [??] [??].
  f_equal; destruct Hsy, Hsx; subst; lia.
Qed.

Lemma ahead_trans a b c : ahead sy sx a b → ahead sy sx b c → ahead sy sx a c.
Proof.
  destruct a, b, c. unfold ahead. simpl. intros [??] [??].
  destruct Hsy, Hsx; subst; lia.
Qed.

Hypothesis Hrows : (0 < shape0 elev)%nat.
Hypothesis Hcols : (0 < shape1 elev)%nat.

Ltac slope_arith :=
  unfold ahead, inside, slope_cell, start_of, end_of in *; simpl in *;
  destruct Hsy, Hsx; subst; repeat case_decide; try done; try lia.

Lemma slope_cell_inside i : inside elev (slope_cell elev sy sx i).
Proof. slope_arith. Qed.

Lemma slope_cell_ahead i j :
  (i ≤ j)%nat → ahead sy sx (slope_cell elev sy sx i) (slope_cell elev sy sx j).
Proof. intros. slope_arith. Qed.

(** Whatever in-bounds cell around the [i]-th cell of the run, the next
    cell of the run is not behind it. *)
Lemma slope_cell_ahead_around i (n : Z * Z) :
  inside elev n →
  Z.abs (n.1 - (slope_cell elev sy sx i).1) ≤ 1 →
  Z.abs (n.2 - (slope_cell elev sy sx i).2) ≤ 1 →
  ahead sy sx n (slope_cell elev sy sx (S i)).
Proof. destruct n. intros. slope_arith. Qed.

Lemma slope_cell_next_near i :
  Z.abs ((slope_cell elev sy sx (S i)).1 - (slope_cell elev sy sx i).1) ≤ 1 ∧
  Z.abs ((slope_cell elev sy sx (S i)).2 - (slope_cell elev sy sx i).2) ≤ 1.
Proof. slope_arith. Qed.

Lemma slope_cell_next_ne i :
  (S i < Nat.max (shape0 elev) (shape1 elev))%nat →
  slope_cell elev sy sx (S i) ≠ slope_cell elev sy sx i.
Proof.
  intros Hi [= H1 H2]. slope_arith.
Qed.

Lemma slope_cell_next_eq i :
  (Nat.max (shape0 elev) (shape1 elev) ≤ S i)%nat →
  slope_cell elev sy sx (S i) = slope_cell elev sy sx i.
Proof.
  intros Hi. unfold slope_cell. f_equal; destruct Hsy, Hsx; subst; lia.
Qed.

Hypothesis Hslope : is_slope elev sy sx.

(** Further along the slope is lower, strictly so for another cell. *)
Lemma slope_mono (a : Z * Z) : ∀ (n : nat) (b : Z * Z),
  inside elev a → inside elev b → ahead sy sx a b →
  Z.to_nat (sy * (b.1 - a.1) + sx * (b.2 - a.2)) = n →
  (at_ elev b <= at_ elev a)%Q ∧ (a ≠ b → (at_ elev b < at_ elev a)%Q).
Proof.
  induction n as [|n IH]; intros [b1 b2] Ha Hb [H1 H2] Hn; simpl in *.
  - assert ((b1, b2) = a) as ->.
    { destruct a as [a1 a2]. simpl in *. f_equal; destruct Hsy, Hsx; subst; lia. }
    split; [lra | done].
  - destruct a as [a1 a2]. simpl in *.
    destruct (decide (sy * (b1 - a1) = 0)) as [Hz|Hnz].
    + assert (inside elev (b1, b2 - sx)) as Hb'.
      { unfold inside in *. simpl in *. destruct Hsx; subst; lia. }
      assert (ahead sy sx (a1, a2) (b1, b2 - sx)) as Hah.
      { unfold ahead. simpl. destruct Hsx; subst; lia. }
      destruct (IH (b1, b2 - sx) Ha Hb' Hah) as [Hle _].
      { simpl. destruct Hsx; subst; lia. }
      destruct (Hslope _ Hb') as [_ Hstep]. simpl in Hstep.
      replace (b2 - sx + sx) with b2 in Hstep by lia. specialize (Hstep Hb).
      split; [|intros _]; lra.
    + assert (inside elev (b1 - sy, b2)) as Hb'.
      { unfold inside in *. simpl in *. destruct Hsy; subst; lia. }
      assert (ahead sy sx (a1, a2) (b1 - sy, b2)) as Hah.
      { unfold ahead. simpl. destruct Hsy; subst; lia. }
      destruct (IH (b1 - sy, b2) Ha Hb' Hah) as [Hle _].
      { simpl. destruct Hsy; subst; lia. }
      destruct (Hslope _ Hb') as [Hstep _]. simpl in Hstep.
      replace (b1 - sy + sy) with b1 in Hstep by lia. specialize (Hstep Hb).
      split; [|intros _]; lra.
Qed.

Lemma slope_lower a b :
  inside elev a → inside elev b → ahead sy sx a b → a ≠ b →
  (at_ elev b < at_ elev a)%Q.
Proof. intros Ha Hb Hab. by eapply slope_mono. Qed.

Lemma slope_not_higher a b :
  inside elev a → inside elev b → ahead sy sx a b →
  (at_ elev b <= at_ elev a)%Q.
Proof. intros Ha Hb Hab. by eapply slope_mono. Qed.

Lemma slope_next_candidate i path :
  (S i < Nat.max (shape0 elev) (shape1 elev))%nat →
  (∀ c, c ∈ path → ahead sy sx c (slope_cell elev sy sx i)) →
  candidate elev (path ++ [slope_cell elev sy sx i])
            (slope_cell elev sy sx i) (slope_cell elev sy sx (S i)).
Proof.
  intros Hi Hpath.
  pose proof (slope_cell_next_ne i Hi) as Hne.
  pose proof (slope_cell_ahead i (S i) (Nat.le_succ_diag_r i)) as Hah.
  split_and!.
  - destruct (slope_cell_next_near i) as [??]. done.
  - apply slope_cell_inside.
  - intros [Hc | Heq%list_elem_of_singleton]%elem_of_app; [|done].
    apply Hne. symmetry. apply ahead_antisym; [done | by apply Hpath].
  - apply slope_lower; [apply slope_cell_inside.. | done | done].
Qed.

Lemma slope_candidate_ahead i path n :
  candidate elev path (slope_cell elev sy sx i) n →
  ahead sy sx n (slope_cell elev sy sx (S i)).
Proof.
  intros ((H1 & H2 & _) & Hin & _).
  apply slope_cell_ahead_around; done.
Qed.

Lemma slope_no_candidate i path n :
  (Nat.max (shape0 elev) (shape1 elev) ≤ S i)%nat →
  ¬ candidate elev path (slope_cell elev sy sx i) n.
Proof.
  intros Hi Hcand. pose proof (slope_candidate_ahead _ _ _ Hcand) as Hah.
  rewrite (slope_cell_next_eq i Hi) in Hah.
  destruct Hcand as (_ & Hin & _ & Hlt).
  pose proof (slope_not_higher n _ Hin (slope_cell_inside i) Hah). lra.
Qed.

Lemma descent_slope path cur rest :
  descent elev path cur rest →
  ∀ i, cur = slope_cell elev sy sx i →
    (∀ c, c ∈ path → ahead sy sx c cur) →
    rest = slope_cell elev sy sx
             <$> seq (S i) (Nat.max (shape0 elev) (shape1 elev) - S i).
Proof.
  induction 1 as [path cur Hstop|path cur nxt rest Hcand Hmin Hdesc IH];
    intros i -> Hpath.
  - destruct (decide (S i < Nat.max (shape0 elev) (shape1 elev))%nat) as [Hi|Hi].
    + exfalso. eapply Hstop. by apply slope_next_candidate.
    + by replace (Nat.max (shape0 elev) (shape1 elev) - S i)%nat with 0%nat by lia.
  - destruct (decide (S i < Nat.max (shape0 elev) (shape1 elev))%nat) as [Hi|Hi].
    2:{ exfalso. eapply slope_no_candidate; [|done]. lia. }
    pose proof (slope_next_candidate i path Hi Hpath) as Hnext.
    assert (nxt = slope_cell elev sy sx (S i)) as ->.
    { destruct (decide (nxt = slope_cell elev sy sx (S i))) as [|Hne]; [done|exfalso].
      pose proof (Hmin _ Hnext) as Hle.
      pose proof (slope_candidate_ahead _ _ _ Hcand) as Hah.
      destruct Hcand as (_ & Hin & _).
      pose proof (slope_lower nxt _ Hin (slope_cell_inside (S i)) Hah Hne). lra. }
    replace (Nat.max (shape0 elev) (shape1 elev) - S i)%nat
      with (S (Nat.max (shape0 elev) (shape1 elev) - S (S i))) by lia.
    cbn [seq fmap list_fmap]. f_equal. apply IH; [done|].
    pose proof (slope_cell_ahead i (S i) (Nat.le_succ_diag_r i)) as Hah.
    intros c [Hc | ->%list_elem_of_singleton]%elem_of_app; [|done].
    eapply ahead_trans; [by apply Hpath | done].
Qed.

Hypothesis Hwf : wf elev.

(** From the starting corner the tracer follows the run cell by cell. *)
Lemma slope_run_traced :
  find_downhill_water_path (shape0 elev * shape1 elev)
      (start_of (shape0 elev) sy) (start_of (shape1 elev) sx) elev
  = Return (slope_cell elev sy sx <$> seq 0 (Nat.max (shape0 elev) (shape1 elev))).
Proof.
  assert (slope_cell elev sy sx 0
          = (start_of (shape0 elev) sy, start_of (shape1 elev) sx)) as Hpeak.
  { unfold slope_cell. f_equal; destruct Hsy, Hsx; subst; lia. }
  destruct (find_downhill_water_path_descent elev
              (start_of (shape0 elev) sy) (start_of (shape1 elev) sx) Hwf)
    as (rest & -> & Hdesc & _).
  { rewrite <- Hpeak. apply slope_cell_inside. }
  apply descent_slope with (i := 0%nat) in Hdesc; [|done|].
  2:{ intros c Hc. by apply elem_of_nil in Hc. }
  subst rest.
  replace (Nat.max (shape0 elev) (shape1 elev))
    with (S (Nat.max (shape0 elev) (shape1 elev) - 1)) at 2 by lia.
  cbn [seq fmap list_fmap]. by rewrite Hpeak.
Qed.

End Slope.

Lemma is_slope_bool_sound elev sy sx :
  is_slope_bool elev sy sx = true → is_slope elev sy sx.
Proof.
  unfold is_slope_bool, is_slope. rewrite forallb_forall. intros Hall c Hc.
  apply elem_of_cells, list_elem_of_In, Hall in Hc.
  apply andb_true_iff in Hc as [H1 H2].
  apply orb_true_iff in H1, H2. rewrite negb_true_iff in H1, H2. split.
  - intros Hin%in_bounds_inside. destruct H1 as [H1|H1]; [congruence|].
    by apply Qlt_bool_iff.
  - intros Hin%in_bounds_inside. destruct H2 as [H2|H2]; [congruence|].
    by apply Qlt_bool_iff.
Qed.


(** * The properties on concrete grids *)

Lemma slope_3x3_is_slope : is_slope slope_3x3 1 1.
Proof. apply is_slope_bool_sound. vm_compute. reflexivity. Qed.

(** C1 on the 3 x 3 slope. *)
Lemma find_downhill_water_path_terminates_witness :
  wf slope_3x3 ∧ inside slope_3x3 (0, 0) ∧
  ∃ path,
    find_downhill_water_path (shape0 slope_3x3 * shape1 slope_3x3) 0 0 slope_3x3
      = Return path ∧
    NoDup path ∧ (length path ≤ shape0 slope_3x3 * shape1 slope_3x3)%nat.
Proof.
  assert (wf slope_3x3) as Hwf by reflexivity.
  assert (inside slope_3x3 (0, 0)) as Hin by (unfold inside; simpl; lia).
  split; [exact Hwf|]. split; [exact Hin|].
  exact (find_downhill_water_path_terminates slope_3x3 0 0 Hwf Hin).
Defined.

(** C3 on the 3 x 3 slope. *)
Lemma find_downhill_water_path_steepest_witness :
  wf slope_3x3 ∧ inside slope_3x3 (0, 0) ∧
  ∃ rest,
    find_downhill_water_path (shape0 slope_3x3 * shape1 slope_3x3) 0 0 slope_3x3
      = Return ((0, 0) :: rest).
Proof.
  assert (wf slope_3x3) as Hwf by reflexivity.
  assert (inside slope_3x3 (0, 0)) as Hin by (unfold inside; simpl; lia).
  split; [exact Hwf|]. split; [exact Hin|].
  destruct (find_downhill_water_path_steepest slope_3x3 0 0 Hwf Hin) as (rest & Hp & _).
  exists rest. exact Hp.
Defined.

(** C4 on the 3 x 3 slope: the only source above the median is the peak. *)
Lemma find_water_sources_sound_witness :
  wf slope_3x3 ∧
  find_water_sources slope_3x3 50 = Return [(0, 0)] ∧
  ∃ threshold,
    np_percentile (data slope_3x3) 50 = Return threshold ∧
    ∀ c, c ∈ [(0, 0)] →
      inside slope_3x3 c ∧ (threshold < at_ slope_3x3 c)%Q ∧
      ∀ n, neighbor8 c n → inside slope_3x3 n →
           ¬ (at_ slope_3x3 c < at_ slope_3x3 n)%Q.
Proof.
  assert (wf slope_3x3) as Hwf by reflexivity.
  assert (find_water_sources slope_3x3 50 = Return [(0, 0)]) as Hs
    by (vm_compute; reflexivity).
  split; [exact Hwf|]. split; [exact Hs|].
  exact (find_water_sources_sound slope_3x3 50 [(0, 0)] Hwf Hs).
Defined.

(** C8 on the pit: water at level 2 is water at level 3. *)
Lemma generate_water_monotone_witness :
  (2 <= 3)%Q ∧
  getitem (generate_water pit_3x3 2) 1 1 = Return 1%Q ∧
  getitem (generate_water pit_3x3 3) 1 1 = Return 1%Q.
Proof.
  assert (2 <= 3)%Q as Hle by (unfold Qle; simpl; lia).
  assert (getitem (generate_water pit_3x3 2) 1 1 = Return 1%Q) as Hw
    by (vm_compute; reflexivity).
  split; [exact Hle|]. split; [exact Hw|].
  exact (generate_water_monotone pit_3x3 2 3 1 1 Hle Hw).
Defined.

(** C5: on the flat strip both cells seed a lake, and neither is a strict
    local minimum: its neighbour is as low as it is. *)
Lemma flat_strip_seeds_lakes :
  ∃ lakes seeds,
    generate_lakes_seeded (lake_fuel flat_1x2) flat_1x2 (zeros 1 2)
      = Return (lakes, seeds) ∧
    (0, 0) ∈ seeds ∧
    ¬ (∀ n, neighbor8 (0, 0) n → inside flat_1x2 n →
            Qlt (at_ flat_1x2 (0, 0)) (at_ flat_1x2 n)).
Proof.
  exists (grid 1 2 [2; 2]), [(0, 0); (0, 1)]. split_and!.
  - vm_compute. reflexivity.
  - apply list_elem_of_here.
  - intros H. specialize (H (0, 1)).
    assert (neighbor8 (0, 0) (0, 1)) as Hn by (unfold neighbor8; simpl; split_and!; [lia | lia | done]).
    assert (inside flat_1x2 (0, 1)) as Hin by (unfold inside; simpl; lia).
    specialize (H Hn Hin). vm_compute in H. discriminate.
Qed.

(** C5 (amended) on the pit. *)
Lemma generate_lakes_seeds_witness :
  wf pit_3x3 ∧ wf (zeros 3 3) ∧ same_shape (zeros 3 3) pit_3x3 ∧
  ∃ lakes seeds,
    generate_lakes_seeded (lake_fuel pit_3x3) pit_3x3 (zeros 3 3) = Return (lakes, seeds).
Proof.
  assert (wf pit_3x3) as Hwf by reflexivity.
  assert (wf (zeros 3 3)) as Hwfr by reflexivity.
  assert (same_shape (zeros 3 3) pit_3x3) as Hsh by (split; reflexivity).
  split; [exact Hwf|]. split; [exact Hwfr|]. split; [exact Hsh|].
  destruct (generate_lakes_seeds pit_3x3 (zeros 3 3) Hwf Hwfr Hsh) as (lakes & seeds & Hrun & _).
  exists lakes, seeds. exact Hrun.
Defined.

(** C6: with a negative [lake_depth], and with a negative [max_gradient],
    [expand_lake] returns and leaves a river map behind. *)
Lemma expand_lake_negative_limits :
  expand_lake (lake_fuel pit_3x3) 1 1 pit_3x3 (zeros 3 3) (-1) 50
    = (Return (), zeros 3 3) ∧
  expand_lake (lake_fuel pit_3x3) 1 1 pit_3x3 (zeros 3 3) 100 (-1)
    = (Return (), grid 3 3 [2; 2; 2; 2; 0; 2; 2; 2; 2]).
Proof. split; vm_compute; reflexivity. Qed.

(** C7: on a grid of height 0, [find_water_sources] fails. *)
Lemma find_water_sources_empty_grid :
  wf empty_0x3 ∧ shape0 empty_0x3 = 0%nat ∧
  find_water_sources empty_0x3 95 = Raise IndexError.
Proof. split_and!; vm_compute; reflexivity. Qed.

(** C7 (amended) on the grid of height 0. *)
Lemma degenerate_grid_outputs_witness :
  wf empty_0x3 ∧ (shape0 empty_0x3 = 0 ∨ shape1 empty_0x3 = 0)%nat ∧
  ∀ level, generate_water empty_0x3 level = mk_ndarray 0 3 [].
Proof.
  assert (wf empty_0x3) as Hwf by reflexivity.
  assert (shape0 empty_0x3 = 0 ∨ shape1 empty_0x3 = 0)%nat as Hd by (left; reflexivity).
  split; [exact Hwf|]. split; [exact Hd|].
  destruct (degenerate_grid_outputs empty_0x3 Hwf Hd) as (Hwater & _).
  exact Hwater.
Defined.



(** * The scenarios of the specification, evaluated *)

(** Scenario A: with water level 2 the pit is the only water cell. *)
Example scenario_pit_water :
  generate_water pit_3x3 2 = grid 3 3 [0; 0; 0; 0; 1; 0; 0; 0; 0].
Proof. vm_compute. reflexivity. Qed.

(** Scenario B: a flat field has no source, no cell being above the
    percentile of equal values. *)
Example scenario_flat_sources :
  find_water_sources (grid 3 3 [7; 7; 7; 7; 7; 7; 7; 7; 7]) 50 = Return [].
Proof. vm_compute. reflexivity. Qed.

(** Scenario C: down the 3 x 3 slope, along the diagonal. *)
Example scenario_slope_path :
  find_downhill_water_path 9 0 0 slope_3x3 = Return [(0, 0); (1, 1); (2, 2)].
Proof. vm_compute. reflexivity. Qed.

(** Scenario D: with depth 0 and gradient 0 the lake of the pit is the
    pit. *)
Example scenario_pit_lake :
  expand_lake (lake_fuel pit_3x3) 1 1 pit_3x3 (zeros 3 3) 0 0
  = (Return (), grid 3 3 [0; 0; 0; 0; 2; 0; 0; 0; 0]).
Proof. vm_compute. reflexivity. Qed.

(** The median of four values, by interpolation between the middle two. *)
Example np_percentile_median :
  ∃ t, np_percentile (inject_Z <$> [4; 1; 3; 2]) 50 = Return t ∧ (t == 5 # 2)%Q.
Proof. eexists. split; [vm_compute; reflexivity | reflexivity]. Qed.

(** A river of accumulated width 2 and a lake: down the two-cell slope
    with its low cell under water, the low cell gets the value 2 from the
    river walk, the value a lake cell has. *)
Example river_of_width_2 :
  ∃ walked,
    river_walk (generate_water (grid 1 2 [1; 0]) 0) [(0, 0); (0, 1)] 1%Q (zeros 1 2)
      = Return walked ∧
    getitem walked.1 0 1 = Return lake_mark.
Proof. eexists. split; vm_compute; reflexivity. Qed.

(** * Further properties of the code *)

(** ** Flow Tracer: downhill all the way, to a local minimum *)

Lemma descent_below elev path cur rest :
  descent elev path cur rest → ∀ c, c ∈ rest → (at_ elev c < at_ elev cur)%Q.
Proof.
  induction 1 as [path cur Hstop|path cur nxt rest Hcand Hmin Hdesc IH]; intros c Hc.
  - by apply elem_of_nil in Hc.
  - destruct Hcand as (_ & _ & _ & Hlt).
    apply elem_of_cons in Hc as [->|Hc]; [done|].
    specialize (IH c Hc). lra.
Qed.

Lemma descent_decreasing elev path cur rest :
  descent elev path cur rest →
  ∀ i j ci cj, (cur :: rest) !! i = Some ci → (cur :: rest) !! j = Some cj →
    (i < j)%nat → (at_ elev cj < at_ elev ci)%Q.
Proof.
  induction 1 as [path cur Hstop|path cur nxt rest Hcand Hmin Hdesc IH];
    intros i j ci cj Hi Hj Hij.
  - destruct i, j; simpl in *; try lia; done.
  - destruct j as [|j]; [lia|]. simpl in Hj. destruct i as [|i]; simpl in Hi.
    + injection Hi as <-.
      assert (cj ∈ nxt :: rest) as Hin by (apply list_elem_of_lookup; eauto).
      eapply descent_below; [|done]. by eapply descent_step.
    + eapply (IH i j); [done | done | lia].
Qed.

(** Along the returned path the elevation falls strictly: every cell is
    strictly lower than every cell before it, and all cells are in
    bounds. *)
Theorem find_downhill_water_path_descends elev y x :
  wf elev → inside elev (y, x) →
  ∃ path,
    find_downhill_water_path (shape0 elev * shape1 elev) y x elev = Return path ∧
    (∀ c, c ∈ path → inside elev c) ∧
    ∀ i j ci cj, path !! i = Some ci → path !! j = Some cj → (i < j)%nat →
      (at_ elev cj < at_ elev ci)%Q.
Proof.
  intros Hwf Hin.
  destruct (find_downhill_water_path_descent elev y x Hwf Hin) as (rest & Hp & Hdesc & _ & Hrest).
  exists ((y, x) :: rest). split_and!; [done | |].
  - intros c [->|?]%elem_of_cons; auto.
  - by apply (descent_decreasing _ _ _ _ Hdesc).
Qed.

(** The last cell of the returned path has no strictly lower in-bounds
    neighbour, on the path or off it: [is_local_minimum] accepts it, so
    the end of every river is one of the cells [generate_lakes] seeds. *)
Theorem find_downhill_water_path_ends_in_minimum elev y x :
  wf elev → inside elev (y, x) →
  ∃ path l,
    find_downhill_water_path (shape0 elev * shape1 elev) y x elev = Return path ∧
    last path = Some l ∧
    is_local_minimum l.1 l.2 elev = Return true.
Proof.
  intros Hwf Hin.
  destruct (find_downhill_water_path_descent elev y x Hwf Hin) as (rest & Hp & Hdesc & _ & Hrest).
  destruct (last ((y, x) :: rest)) as [l|] eqn:Hlast.
  2:{ apply last_None in Hlast. done. }
  exists ((y, x) :: rest), l. split_and!; [done | done |].
  pose proof Hlast as (pre & Hpre)%last_Some.
  assert (inside elev l) as Hl.
  { assert (l ∈ (y, x) :: rest) as [->|?]%elem_of_cons; auto.
    rewrite Hpre. apply elem_of_app. right. by apply list_elem_of_singleton. }
  destruct l as [ly lx].
  destruct (is_local_minimum_spec elev ly lx Hwf Hl) as (b & Hb & Hiff).
  simpl. rewrite Hb. f_equal. apply Hiff. intros n Hn Hnin Hlt.
  apply (descent_end _ _ _ _ Hdesc pre (ly, lx) Hpre n).
  split_and!; [done | done | | done].
  intros Hnp. change ([] ++ (y, x) :: rest) with ((y, x) :: rest) in Hnp.
  apply list_elem_of_lookup in Hnp as (i & Hi).
  rewrite last_lookup in Hlast.
  destruct (decide (i = pred (length ((y, x) :: rest)))) as [->|Hne].
  - assert (n = (ly, lx)) as -> by congruence. lra.
  - pose proof (lookup_lt_Some _ _ _ Hi) as Hlen.
    assert (i < pred (length ((y, x) :: rest)))%nat as Hij by lia.
    pose proof (descent_decreasing _ _ _ _ Hdesc i _ _ _ Hi Hlast Hij). lra.
Qed.

(** ** Coordinates out of range *)

Lemma getitem_out_of_range a y x :
  ¬ (- Z.of_nat (shape0 a) ≤ y < Z.of_nat (shape0 a)) ∨
  ¬ (- Z.of_nat (shape1 a) ≤ x < Z.of_nat (shape1 a)) →
  getitem a y x = Raise IndexError.
Proof.
  intros H. unfold getitem, flat_index, axis_index.
  destruct H; repeat case_decide; simpl; try lia; done.
Qed.

(** A start or seed outside the index range of the elevation map (beyond
    the last row or column, or below minus the number of rows or columns)
    is refused with an [IndexError] by the tracer, by both extremum tests
    and by [expand_lake], which then leaves the river map untouched. *)
Theorem out_of_range_raises elev y x :
  ¬ (- Z.of_nat (shape0 elev) ≤ y < Z.of_nat (shape0 elev)) ∨
  ¬ (- Z.of_nat (shape1 elev) ≤ x < Z.of_nat (shape1 elev)) →
  (∀ fuel, find_downhill_water_path (S fuel) y x elev = Raise IndexError) ∧
  is_local_maximum y x elev = Raise IndexError ∧
  is_local_minimum y x elev = Raise IndexError ∧
  (∀ fuel river ld mg,
     expand_lake fuel y x elev river ld mg = (Raise IndexError, river)).
Proof.
  intros H. pose proof (getitem_out_of_range elev y x H) as Hget. split_and!.
  - intros fuel. unfold find_downhill_water_path. cbn [downhill_loop].
    by rewrite Hget.
  - unfold is_local_maximum. by rewrite Hget.
  - unfold is_local_minimum. by rewrite Hget.
  - intros. unfold expand_lake. by rewrite Hget.
Qed.

(** ** Cells of well-formed arrays *)

Lemma flat_index_injective a (c c' : Z * Z) :
  inside a c → inside a c' →
  (Z.to_nat c.1 * shape1 a + Z.to_nat c.2 = Z.to_nat c'.1 * shape1 a + Z.to_nat c'.2)%nat →
  c = c'.
Proof.
  destruct c as [y x], c' as [y' x']. unfold inside. simpl. intros [??] [??] Heq.
  assert (Z.to_nat y = Z.to_nat y') by nia.
  assert (Z.to_nat x = Z.to_nat x') by nia.
  f_equal; lia.
Qed.

Lemma setitem_at r y x v r' (c : Z * Z) :
  setitem r y x v = Return r' → inside r (y, x) → inside r c →
  at_ r' c = if decide (c = (y, x)) then v else at_ r c.
Proof.
  intros (i & Hi & Hlt & ->)%setitem_Return Hyx Hc.
  rewrite (flat_index_inside _ _ _ Hyx) in Hi. injection Hi as <-.
  unfold at_. simpl. case_decide as Heq.
  - subst c. simpl. by rewrite list_lookup_insert_eq.
  - rewrite list_lookup_insert_ne; [done|].
    intros Hidx. apply Heq. symmetry. by eapply flat_index_injective.
Qed.

Lemma setitem_shape r y x v r' :
  setitem r y x v = Return r' → same_shape r' r ∧ (wf r → wf r').
Proof.
  intros (i & Hi & Hlt & ->)%setitem_Return. unfold same_shape, wf. simpl.
  split; [done|]. by rewrite length_insert.
Qed.

Lemma at_in_data a c : wf a → inside a c → at_ a c ∈ data a.
Proof.
  intros Hwf Hin. destruct c as [y x].
  pose proof (getitem_inside a y x Hwf Hin) as Hg.
  apply getitem_Return in Hg as (i & _ & Hi). by eapply list_elem_of_lookup_2.
Qed.

Lemma at_zeros h w c : at_ (zeros h w) c = 0%Q.
Proof.
  unfold at_, zeros. simpl.
  destruct (replicate (h * w) 0%Q !! _) as [v|] eqn:E; [|done].
  by apply lookup_replicate in E as [-> _].
Qed.

Lemma zeros_wf h w : wf (zeros h w).
Proof. unfold wf, zeros. simpl. by rewrite length_replicate. Qed.

(** ** The percentile lies among the data *)

Lemma elem_of_insert_sorted v l x : x ∈ insert_sorted v l ↔ x = v ∨ x ∈ l.
Proof.
  induction l as [|u l IH]; simpl.
  - rewrite list_elem_of_singleton, elem_of_nil. tauto.
  - destruct (Qle_bool v u); rewrite !elem_of_cons, ?IH; tauto.
Qed.

Lemma length_insert_sorted v l : length (insert_sorted v l) = S (length l).
Proof.
  induction l as [|u l IH]; simpl; [done|].
  destruct (Qle_bool v u); simpl; by rewrite ?IH.
Qed.

Lemma elem_of_np_sort l x : x ∈ np_sort l ↔ x ∈ l.
Proof.
  unfold np_sort. induction l as [|u l IH]; simpl; [done|].
  rewrite elem_of_insert_sorted, elem_of_cons, IH. tauto.
Qed.

Lemma length_np_sort l : length (np_sort l) = length l.
Proof.
  unfold np_sort. induction l as [|u l IH]; simpl; [done|].
  by rewrite length_insert_sorted, IH.
Qed.

(** Between two values, at a fraction of the way. *)
Lemma lerp_between (lo hi a b g : Q) :
  (lo <= a <= hi)%Q → (lo <= b <= hi)%Q → (0 <= g <= 1)%Q →
  (lo <= a + (b - a) * g <= hi)%Q.
Proof. intros [??] [??] [??]. split; nra. Qed.

(** On data that is not empty, a percentile in [0, 100] is computed: it
    is a point between two of the data, at a fraction of the way. *)
Lemma np_percentile_form a q :
  a ≠ [] → (0 <= q <= 100)%Q →
  ∃ t u v g, np_percentile a q = Return t ∧ u ∈ a ∧ v ∈ a ∧
             (0 <= g <= 1)%Q ∧ t = (u + (v - u) * g)%Q.
Proof.
  intros Hne [Hq0 Hq1]. unfold np_percentile.
  rewrite (proj2 (Qle_bool_iff 0 q) Hq0), (proj2 (Qle_bool_iff q 100) Hq1).
  cbn [andb negb]. rewrite length_np_sort.
  assert (0 < length a)%nat as Hlen by (destruct a; [done | simpl; lia]).
  rewrite decide_False by lia.
  set (n := Z.of_nat (length a)).
  set (virtual := (inject_Z (n - 1) * (q / 100))%Q).
  assert (0 <= virtual <= inject_Z (n - 1))%Q as [Hv0 Hv1].
  { assert (0 <= inject_Z (n - 1))%Q as HN.
    { change 0%Q with (inject_Z 0). rewrite <- Zle_Qle. lia. }
    assert (q / 100 * 100 == q)%Q as Hk by (apply Qdiv_mult_l; unfold Qeq; simpl; lia).
    unfold virtual. split; nra. }
  assert (0 ≤ Qfloor virtual ≤ n - 1) as [Hf0 Hf1].
  { split.
    - rewrite <- (Qfloor_Z 0). by apply Qfloor_resp_le.
    - rewrite <- (Qfloor_Z (n - 1)). by apply Qfloor_resp_le. }
  set (lo_i := Qfloor virtual) in *.
  assert (0 <= virtual - inject_Z lo_i <= 1)%Q as Hg.
  { pose proof (Qfloor_le virtual) as H1. pose proof (Qlt_floor virtual) as H2.
    fold lo_i in H1, H2. rewrite inject_Z_plus in H2.
    change (inject_Z 1) with 1%Q in H2. split; lra. }
  assert (∀ k, 0 ≤ k ≤ n - 1 → ∃ e, np_sort a !! Z.to_nat k = Some e ∧ e ∈ a) as Hlook.
  { intros k Hk.
    destruct (np_sort a !! Z.to_nat k) as [e|] eqn:E.
    - exists e. split; [done|]. apply elem_of_np_sort. by eapply list_elem_of_lookup_2.
    - apply lookup_ge_None in E. rewrite length_np_sort in E. lia. }
  destruct (Hlook lo_i) as (u & -> & Hu); [lia|].
  destruct (Hlook (Z.min (lo_i + 1) (n - 1))) as (v & -> & Hv); [lia|].
  eexists _, u, v, _.
  split; [done|]. split; [done|]. split; [done|]. split; [exact Hg | done].
Qed.

Lemma np_percentile_returns a q :
  a ≠ [] → (0 <= q <= 100)%Q → ∃ t, np_percentile a q = Return t.
Proof.
  intros Hne Hq. destruct (np_percentile_form a q Hne Hq) as (t & _ & _ & _ & Ht & _).
  eauto.
Qed.

Lemma np_percentile_lower a q t (lo : Q) :
  np_percentile a q = Return t → a ≠ [] → (0 <= q <= 100)%Q →
  (∀ e, e ∈ a → (lo <= e)%Q) → (lo <= t)%Q.
Proof.
  intros Ht Hne Hq Hlo.
  destruct (np_percentile_form a q Hne Hq) as (t' & u & v & g & Ht' & Hu & Hv & [??] & ->).
  rewrite Ht in Ht'. injection Ht' as ->.
  pose proof (Hlo u Hu). pose proof (Hlo v Hv). nra.
Qed.

(** ** Source Detector: exactly the high local maxima *)

Lemma keep_local_maxima_sublist elev sources kept :
  keep_local_maxima elev sources = Return kept → sublist kept sources.
Proof.
  revert kept. induction sources as [|[y x] rest IH]; intros kept; simpl.
  - intros [= <-]. constructor.
  - intros (b & _ & H)%bind_Return_inv.
    apply bind_Return_inv in H as (kept' & Hk & [= <-]).
    specialize (IH _ Hk). destruct b; by constructor.
Qed.

Lemma nonempty_data a :
  wf a → (0 < shape0 a)%nat → (0 < shape1 a)%nat → data a ≠ [].
Proof. unfold wf. intros Hwf ?? Hnil. rewrite Hnil in Hwf. simpl in Hwf. nia. Qed.

(** On a grid that is not empty and for a percentile in [0, 100],
    [find_water_sources] returns, and the list it returns holds each cell
    once, in the row-by-row order of the grid, and holds exactly the cells
    that are strictly above the percentile threshold and have no strictly
    higher in-bounds 8-neighbour. *)
Theorem find_water_sources_exact elev percentile :
  wf elev → (0 < shape0 elev)%nat → (0 < shape1 elev)%nat →
  (0 <= percentile <= 100)%Q →
  ∃ threshold sources,
    np_percentile (data elev) percentile = Return threshold ∧
    find_water_sources elev percentile = Return sources ∧
    sublist sources (cells elev) ∧ NoDup sources ∧
    ∀ c, c ∈ sources ↔
         inside elev c ∧ (threshold < at_ elev c)%Q ∧
         ∀ n, neighbor8 c n → inside elev n → ¬ (at_ elev c < at_ elev n)%Q.
Proof.
  intros Hwf Hr Hc Hq.
  destruct (np_percentile_returns (data elev) percentile
              (nonempty_data _ Hwf Hr Hc) Hq) as (t & Ht).
  exists t. unfold find_water_sources. rewrite Ht. bind_simpl.
  destruct (keep_local_maxima_spec elev (argwhere_gt elev t) Hwf) as (kept & Hk & Hspec).
  { intros c Hin. by apply elem_of_argwhere_gt in Hin as [? _]. }
  exists kept. rewrite Hk.
  assert (sublist kept (cells elev)) as Hsub.
  { etrans; [by eapply keep_local_maxima_sublist|].
    unfold argwhere_gt. apply sublist_filter. }
  split_and!; [done | done | done | apply (sublist_NoDup _ _ (NoDup_cells elev) Hsub) |].
  intros [y x]. rewrite Hspec, elem_of_argwhere_gt. split.
  - intros [[Hin Hgt] Hmax]. split_and!; [done | done |].
    destruct (is_local_maximum_spec elev y x Hwf Hin) as (b & Hb & Hiff).
    simpl in Hmax. rewrite Hmax in Hb. injection Hb as <-. by apply Hiff.
  - intros (Hin & Hgt & Hmax). split; [done|].
    destruct (is_local_maximum_spec elev y x Hwf Hin) as (b & Hb & Hiff).
    simpl. rewrite Hb. f_equal. by apply Hiff.
Qed.

(** The threshold is never below the lowest cell: every source lies
    strictly above every lower bound of the grid, so a cell holding the
    lowest elevation is never a source; and on a flat field, all cells
    equal, [find_water_sources] returns the empty list, whatever the
    percentile in [0, 100]. *)
Theorem find_water_sources_above_lowest elev percentile :
  wf elev → (0 < shape0 elev)%nat → (0 < shape1 elev)%nat →
  (0 <= percentile <= 100)%Q →
  ∃ sources,
    find_water_sources elev percentile = Return sources ∧
    (∀ (m : Q), (∀ c', inside elev c' → (m <= at_ elev c')%Q) →
                ∀ c, c ∈ sources → (m < at_ elev c)%Q) ∧
    ((∀ c c', inside elev c → inside elev c' → (at_ elev c == at_ elev c')%Q) →
     sources = []).
Proof.
  intros Hwf Hr Hc Hq.
  pose proof (nonempty_data _ Hwf Hr Hc) as Hne.
  destruct (np_percentile_returns (data elev) percentile Hne Hq) as (t & Ht).
  unfold find_water_sources. rewrite Ht. bind_simpl.
  destruct (keep_local_maxima_spec elev (argwhere_gt elev t) Hwf) as (kept & Hk & Hspec).
  { intros c Hin. by apply elem_of_argwhere_gt in Hin as [? _]. }
  exists kept. rewrite Hk. split; [done|].
  assert (∀ (m : Q), (∀ c', inside elev c' → (m <= at_ elev c')%Q) →
                     ∀ c, c ∈ kept → (m < at_ elev c)%Q) as Hlow.
  { intros m Hm c [[Hin Hgt]%elem_of_argwhere_gt _]%Hspec.
    assert (m <= t)%Q; [|lra].
    apply (np_percentile_lower _ _ _ m Ht Hne Hq).
    intros e (i & Hi)%list_elem_of_lookup.
    pose proof (lookup_lt_Some _ _ _ Hi) as Hlt. rewrite Hwf in Hlt.
    specialize (Hm (Z.of_nat (i / shape1 elev), Z.of_nat (i mod shape1 elev))).
    unfold at_ in Hm. simpl in Hm. rewrite !Nat2Z.id in Hm.
    replace (i / shape1 elev * shape1 elev + i mod shape1 elev)%nat with i in Hm.
    2:{ rewrite (Nat.div_mod i (shape1 elev)) at 1 by lia. lia. }
    rewrite Hi in Hm. simpl in Hm. apply Hm.
    unfold inside. simpl.
    pose proof (Nat.mod_upper_bound i (shape1 elev)).
    assert (i / shape1 elev < shape0 elev)%nat by (apply Nat.Div0.div_lt_upper_bound; lia).
    lia. }
  split; [done|].
  intros Hflat. destruct kept as [|c kept]; [done|]. exfalso.
  assert (c ∈ c :: kept) as Hc' by left.
  pose proof Hc' as [[Hin _]%elem_of_argwhere_gt _]%Hspec.
  assert (∀ c', inside elev c' → (at_ elev c <= at_ elev c')%Q) as Hm.
  { intros c' Hc''. pose proof (Hflat c c' Hin Hc''). lra. }
  pose proof (Hlow (at_ elev c) Hm c Hc'). lra.
Qed.

(** ** The source map *)

Lemma mark_sources_spec (sources : list (Z * Z)) : ∀ m,
  wf m → (∀ c, c ∈ sources → inside m c) →
  ∃ m', mark_sources sources m = Return m' ∧ same_shape m' m ∧ wf m' ∧
        ∀ c, inside m c →
             at_ m' c = if decide (c ∈ sources) then 1%Q else at_ m c.
Proof.
  induction sources as [|[y x] rest IH]; intros m Hwf Hin; cbn [mark_sources].
  - exists m. split_and!; [done | done | done |].
    intros c _. rewrite decide_False; [done|]. apply not_elem_of_nil.
  - assert (inside m (y, x)) as Hyx by (apply Hin; by left).
    destruct (setitem_inside m y x 1%Q Hwf Hyx) as (m1 & Hset).
    rewrite Hset. bind_simpl.
    pose proof (setitem_shape _ _ _ _ _ Hset) as [Hsh Hwf1].
    destruct (IH m1) as (m' & -> & Hsh' & Hwf' & Hat).
    { by apply Hwf1. }
    { intros c Hc. eapply inside_same_shape; [done|]. apply Hin. by right. }
    exists m'. split_and!; [done | | done |].
    { destruct Hsh, Hsh'. split; congruence. }
    intros c Hc. rewrite Hat by (by eapply inside_same_shape).
    rewrite (setitem_at _ _ _ _ _ c Hset Hyx Hc).
    destruct (decide (c ∈ rest)) as [Hr|Hr].
    + rewrite decide_True; [done | by right].
    + destruct (decide (c = (y, x))) as [->|Hne].
      * rewrite decide_True; [done | by left].
      * rewrite decide_False; [done|]. by intros [?|?]%elem_of_cons.
Qed.

(** [generate_water_sources] returns whenever [find_water_sources] does,
    and its map has the shape of the elevation map and holds 1 at the
    sources and 0 at every other cell. *)
Theorem generate_water_sources_marks elev percentile sources :
  wf elev →
  find_water_sources elev percentile = Return sources →
  ∃ m,
    generate_water_sources elev percentile = Return m ∧
    same_shape m elev ∧
    ∀ c, inside elev c → at_ m c = if decide (c ∈ sources) then 1%Q else 0%Q.
Proof.
  intros Hwf Hfind. unfold generate_water_sources. rewrite Hfind. bind_simpl.
  assert (∀ c, c ∈ sources → inside elev c) as Hin.
  { unfold find_water_sources in Hfind.
    apply bind_Return_inv in Hfind as (t & _ & Hk).
    intros c Hc. eapply elem_of_sublist in Hc; [|by eapply keep_local_maxima_sublist].
    by apply elem_of_argwhere_gt in Hc as [? _]. }
  destruct (mark_sources_spec sources (zeros (shape0 elev) (shape1 elev)))
    as (m & Hm & Hsh & _ & Hat).
  { apply zeros_wf. }
  { intros c Hc. apply Hin in Hc. done. }
  exists m. split_and!; [done | done |].
  intros c Hc. rewrite Hat by done. by rewrite at_zeros.
Qed.

(** ** Lake Expander: the cells it fills *)

Lemma in_band_bool elev start ld mg n :
  Qle_bool (at_ elev n - start) ld && Qle_bool (- mg) (at_ elev n - start) = true
  ↔ in_band elev start ld mg n.
Proof. unfold in_band. by rewrite andb_true_iff, !Qle_bool_iff. Qed.

(** One neighbour, on arrays of one shape: admitted, it joins the queue
    and its cell is not zero afterwards; not admitted, nothing changes. *)
Lemma lake_admit_flood elev start ld mg ny nx (st : ndarray * list (Z * Z)) :
  wf elev → wf st.1 → same_shape st.1 elev →
  ∃ st', lake_admit elev start ld mg ny nx st = Return st' ∧
    wf st'.1 ∧ same_shape st'.1 elev ∧
    ((inside elev (ny, nx) ∧ in_band elev start ld mg (ny, nx) ∧
      st'.2 = st.2 ++ [(ny, nx)] ∧ ¬ (at_ st'.1 (ny, nx) == 0)%Q ∧
      ∀ m, inside elev m →
           at_ st'.1 m = at_ st.1 m ∨
           (m = (ny, nx) ∧ (at_ st.1 m == 0)%Q ∧ at_ st'.1 m = lake_mark))
     ∨ (¬ (inside elev (ny, nx) ∧ in_band elev start ld mg (ny, nx)) ∧ st' = st)).
Proof.
  intros Hwf Hwfr Hsh. unfold lake_admit.
  destruct (in_bounds elev ny nx) eqn:Hin.
  2:{ apply in_bounds_outside in Hin. exists st. split_and!; [done..|]. right. tauto. }
  apply in_bounds_inside in Hin. rewrite (getitem_inside _ _ _ Hwf Hin). bind_simpl.
  destruct (_ && _) eqn:Hband.
  2:{ exists st. split_and!; [done..|]. right. split; [|done].
      intros [_ Hb%in_band_bool]. congruence. }
  apply in_band_bool in Hband.
  pose proof (inside_same_shape _ _ _ Hsh Hin) as Hinr.
  rewrite (getitem_inside _ _ _ Hwfr Hinr). bind_simpl.
  destruct (Qeq_bool (at_ st.1 (ny, nx)) 0) eqn:Hz; bind_simpl.
  - destruct (setitem_inside st.1 ny nx lake_mark Hwfr Hinr) as (r' & Hset).
    rewrite Hset. bind_simpl.
    pose proof (setitem_shape _ _ _ _ _ Hset) as [[H0 H1] Hwf'].
    apply Qeq_bool_iff in Hz.
    exists (r', st.2 ++ [(ny, nx)]). simpl. split_and!; [done | by apply Hwf' | |].
    { destruct Hsh. split; congruence. }
    left. split_and!; [done | done | done | |].
    + rewrite (setitem_at _ _ _ _ _ (ny, nx) Hset Hinr Hinr), decide_True by done.
      apply lake_mark_nonzero.
    + intros m Hm. pose proof (inside_same_shape _ _ _ Hsh Hm) as Hmr.
      rewrite (setitem_at _ _ _ _ _ m Hset Hinr Hmr).
      case_decide as Heq; [right; by subst | by left].
  - exists (st.1, st.2 ++ [(ny, nx)]). simpl. split_and!; [done..|].
    left. split_and!; [done | done | done | | by left].
    apply not_true_iff_false in Hz. by rewrite Qeq_bool_iff in Hz.
Qed.

(** Once a cell is not zero, it stays so. *)
Lemma nonzero_kept (v v' : Q) :
  v' = v ∨ ((v == 0)%Q ∧ v' = lake_mark) → ¬ (v == 0)%Q → ¬ (v' == 0)%Q.
Proof. intros [->|[? ->]] Hnz; [done | apply lake_mark_nonzero]. Qed.

Lemma lake_scan_flood elev start ld mg cy cx offs : ∀ (st : ndarray * list (Z * Z)),
  wf elev → wf st.1 → same_shape st.1 elev →
  let r := lake_scan elev start ld mg cy cx offs st in
  r.1 = Return () ∧ wf r.2.1 ∧ same_shape r.2.1 elev ∧
  (∀ n, n ∈ r.2.2 ↔
        n ∈ st.2 ∨ ∃ d, d ∈ offs ∧ n = (cy + d.1, cx + d.2) ∧
                        inside elev n ∧ in_band elev start ld mg n) ∧
  (∀ m, inside elev m →
        at_ r.2.1 m = at_ st.1 m ∨
        ((at_ st.1 m == 0)%Q ∧ at_ r.2.1 m = lake_mark ∧
         ∃ d, d ∈ offs ∧ m = (cy + d.1, cx + d.2) ∧ in_band elev start ld mg m)) ∧
  (∀ d, d ∈ offs → inside elev (cy + d.1, cx + d.2) →
        in_band elev start ld mg (cy + d.1, cx + d.2) →
        ¬ Qeq (at_ r.2.1 (cy + d.1, cx + d.2)) 0%Q).
Proof.
  induction offs as [|[dy dx] rest IH]; intros st Hwf Hwfr Hsh; cbn [lake_scan].
  - cbn zeta. simpl. split_and!; [done | done | done | | by left |].
    + intros n. split; [by left|]. intros [?|(d & Hd & _)]; [done|].
      by apply elem_of_nil in Hd.
    + intros d Hd. by apply elem_of_nil in Hd.
  - destruct (lake_admit_flood elev start ld mg (cy + dy) (cx + dx) st Hwf Hwfr Hsh)
      as (st' & -> & Hwf' & Hsh' & Hcase).
    destruct (IH st' Hwf Hwf' Hsh') as (Hret & Hwf2 & Hsh2 & Hq & Hat & Hnz).
    cbn zeta in *. split_and!; [done | done | done | | |].
    + intros n. rewrite Hq. destruct Hcase as [(Hin & Hb & -> & _)|[Hno ->]].
      * rewrite elem_of_app, list_elem_of_singleton. split.
        -- intros [[?| ->]|(d & Hd & ?)]; [by left | right | right].
           ++ exists (dy, dx). split_and!; [by left | done..].
           ++ exists d. split; [by right | done].
        -- intros [?|(d & [->|Hd]%elem_of_cons & Hn & ?)]; [by left; left | |].
           ++ left; right. done.
           ++ right. exists d. done.
      * split.
        -- intros [?|(d & Hd & ?)]; [by left | right]. exists d. split; [by right|done].
        -- intros [?|(d & [->|Hd]%elem_of_cons & -> & Hi & Hb)]; [by left | | ].
           ++ exfalso. apply Hno. done.
           ++ right. exists d. done.
    + intros m Hm. destruct (Hat m Hm) as [Hsame|(Hz & Hmark & d & Hd & Hmd & Hb)].
      * rewrite Hsame. destruct Hcase as [(Hin & Hb & _ & _ & Hstep)|[_ ->]]; [|by left].
        destruct (Hstep m Hm) as [?|(-> & Hz & Hmark)]; [by left | right].
        split_and!; [done | done |]. exists (dy, dx). split_and!; [by left | done..].
      * destruct Hcase as [(Hin & Hb' & _ & _ & Hstep)|[_ ->]].
        -- destruct (Hstep m Hm) as [Heq|(_ & _ & Hmark')].
           ++ right. rewrite <- Heq. split_and!; [done | done |].
              exists d. split; [by right | done].
           ++ exfalso. rewrite Hmark' in Hz. by apply lake_mark_nonzero.
        -- right. split_and!; [done | done |]. exists d. split; [by right | done].
    + intros d [->|Hd]%elem_of_cons Hin Hb; [|by apply Hnz].
      simpl in *. destruct Hcase as [(_ & _ & _ & Hnz' & _)|[Hno _]]; [|tauto].
      eapply nonzero_kept; [|exact Hnz'].
      destruct (Hat _ Hin) as [?|(? & ? & _)]; [by left | by right].
Qed.

Lemma offsets_around (c n : Z * Z) :
  (∃ d, d ∈ offsets ∧ n = (c.1 + d.1, c.2 + d.2)) ↔
  Z.abs (n.1 - c.1) ≤ 1 ∧ Z.abs (n.2 - c.2) ≤ 1.
Proof.
  rewrite offsets_reach. unfold neighbor8. split.
  - intros [->|(? & ? & _)]; [lia | done].
  - intros [??]. destruct (decide (n = c)); [by left | by right].
Qed.

Section Flood.
Variable elev : ndarray.
Variables start ld mg : Q.
Variable seed : Z * Z.
Variable r0 : ndarray.
Hypothesis Hwf : wf elev.

(** The cells that the flood from [seed] fills. *)
Let filled (m : Z * Z) : Prop :=
  flooded elev start ld mg seed m ∧ in_band elev start ld mg m.

(** The state of the loop agrees with the flood so far: the queue and the
    visited cells are flooded cells, every admitted cell around a visited
    cell is queued or visited and is not zero, and the river map differs
    from the map of the call only where a zero was filled. *)
Let flood_inv (queue : list (Z * Z)) (visited : gset (Z * Z)) (river : ndarray) : Prop :=
  wf river ∧ same_shape river elev ∧
  (∀ c, c ∈ queue → flooded elev start ld mg seed c) ∧
  (∀ c, c ∈ visited → flooded elev start ld mg seed c) ∧
  (∀ c n, c ∈ visited → Z.abs (n.1 - c.1) ≤ 1 → Z.abs (n.2 - c.2) ≤ 1 →
          inside elev n → in_band elev start ld mg n →
          (n ∈ visited ∨ n ∈ queue) ∧ ¬ (at_ river n == 0)%Q) ∧
  (seed ∈ visited ∨ seed ∈ queue) ∧
  (∀ m, inside elev m →
        at_ river m = at_ r0 m ∨
        ((at_ r0 m == 0)%Q ∧ at_ river m = lake_mark ∧ filled m)).

Lemma flood_inv_end visited river :
  flood_inv [] visited river →
  ∀ m, inside elev m →
    ((at_ r0 m == 0)%Q ∧ filled m → at_ river m = lake_mark) ∧
    (¬ ((at_ r0 m == 0)%Q ∧ filled m) → at_ river m = at_ r0 m).
Proof.
  intros (_ & _ & _ & _ & Hclosed & Hseed & Hmarks) m Hm.
  assert (∀ c, flooded elev start ld mg seed c → c ∈ visited) as Hall.
  { induction 1 as [|c n _ IH H1 H2 Hin Hb].
    - destruct Hseed as [?|Hs]; [done | by apply elem_of_nil in Hs].
    - destruct (Hclosed c n IH H1 H2 Hin Hb) as [[?|Hq] _]; [done|].
      by apply elem_of_nil in Hq. }
  split.
  - intros [Hz [Hf Hb]].
    destruct (Hclosed m m (Hall m Hf)) as [_ Hnz]; [lia | lia | done | done |].
    destruct (Hmarks m Hm) as [Heq|(_ & ? & _)]; [|done].
    rewrite Heq in Hnz. done.
  - intros Hno. destruct (Hmarks m Hm) as [?|(? & _ & ?)]; [done | tauto].
Qed.

Lemma lake_loop_flood : ∀ fuel queue visited river,
  flood_inv queue visited river →
  (lake_loop fuel elev start ld mg queue visited river).1 = Return () →
  ∀ m, inside elev m →
    ((at_ r0 m == 0)%Q ∧ filled m →
       at_ (lake_loop fuel elev start ld mg queue visited river).2 m = lake_mark) ∧
    (¬ ((at_ r0 m == 0)%Q ∧ filled m) →
       at_ (lake_loop fuel elev start ld mg queue visited river).2 m = at_ r0 m).
Proof.
  induction fuel as [|fuel IH]; intros [|[cy cx] queue] visited river Hinv;
    cbn [lake_loop].
  - intros _. by apply flood_inv_end with visited.
  - done.
  - intros _. by apply flood_inv_end with visited.
  - destruct Hinv as (Hwfr & Hsh & Hq & Hv & Hclosed & Hseed & Hmarks).
    destruct (bool_decide ((cy, cx) ∈ visited)) eqn:Hvis.
    + apply bool_decide_eq_true in Hvis. apply IH.
      split_and!; [done | done | | done | | |done].
      * intros c Hc. apply Hq. by right.
      * intros c n Hc H1 H2 Hin Hb.
        destruct (Hclosed c n Hc H1 H2 Hin Hb) as [[?|[->|?]%elem_of_cons] ?]; auto.
      * destruct Hseed as [?|[->|?]%elem_of_cons]; auto.
    + apply bool_decide_eq_false in Hvis.
      pose proof (lake_scan_flood elev start ld mg cy cx offsets (river, queue)
                    Hwf Hwfr Hsh) as (Hret & Hwf' & Hsh' & Hq' & Hat & Hnz).
      destruct (lake_scan elev start ld mg cy cx offsets (river, queue))
        as [[[]| |] [river' queue']]; simpl in *; [|done..].
      assert (flooded elev start ld mg seed (cy, cx)) as Hc by (apply Hq; by left).
      assert (∀ n, (∃ d, d ∈ offsets ∧ n = (cy + d.1, cx + d.2)) ↔
                   Z.abs (n.1 - cy) ≤ 1 ∧ Z.abs (n.2 - cx) ≤ 1) as Haround.
      { intros n. apply (offsets_around (cy, cx) n). }
      apply IH. split_and!; [done | done | | | | |].
      * intros n [Hn|(d & Hd & -> & Hin & Hb)]%Hq'; [apply Hq; by right|].
        destruct (proj1 (Haround (cy + d.1, cx + d.2))) as [??]; [by eauto|].
        by eapply flooded_step.
      * intros c [->%elem_of_singleton|?]%elem_of_union; auto.
      * intros c n [->%elem_of_singleton|Hcv]%elem_of_union H1 H2 Hin Hb.
        -- destruct (proj2 (Haround n)) as (d & Hd & ->); [done|]. split.
           ++ right. apply Hq'. right. exists d. done.
           ++ by apply Hnz.
        -- destruct (Hclosed c n Hcv H1 H2 Hin Hb) as [Hor Hnzn]. split.
           ++ destruct Hor as [?|[->|?]%elem_of_cons].
              ** left. apply elem_of_union. by right.
              ** left. apply elem_of_union. left. by apply elem_of_singleton.
              ** right. apply Hq'. by left.
           ++ eapply nonzero_kept; [|exact Hnzn].
              destruct (Hat n Hin) as [?|(? & ? & _)]; [by left | by right].
      * destruct Hseed as [?|[->|?]%elem_of_cons].
        -- left. apply elem_of_union. by right.
        -- left. apply elem_of_union. left. by apply elem_of_singleton.
        -- right. apply Hq'. by left.
      * intros m Hm. destruct (Hat m Hm) as [->|(Hz & -> & d & Hd & -> & Hb)].
        -- apply Hmarks, Hm.
        -- destruct (Hmarks _ Hm) as [Heq|(_ & Hmark & _)].
           ++ right. rewrite <- Heq. split_and!; [done | done |]. split; [|done].
              destruct (proj1 (Haround (cy + d.1, cx + d.2))) as [??]; [by eauto|].
              by eapply flooded_step.
           ++ exfalso. rewrite Hmark in Hz. by apply lake_mark_nonzero.
Qed.

End Flood.

(** The river map after a flood fill that returned: the zero cells of the
    basin of the seed hold the lake mark, every other cell holds what it
    held. *)
Lemma expand_lake_flood fuel y x elev river ld mg :
  wf elev → wf river → same_shape river elev → inside elev (y, x) →
  (lake_fuel elev ≤ fuel)%nat →
  let r := expand_lake fuel y x elev river ld mg in
  r.1 = Return () ∧ wf r.2 ∧ same_shape r.2 elev ∧
  ∀ m, inside elev m →
    ((at_ river m == 0)%Q ∧ basin elev ld mg (y, x) m → at_ r.2 m = lake_mark) ∧
    (¬ ((at_ river m == 0)%Q ∧ basin elev ld mg (y, x) m) → at_ r.2 m = at_ river m).
Proof.
  intros Hwf Hwfr Hsh Hin Hfuel r.
  pose proof (expand_lake_returns fuel y x elev river ld mg Hwf Hwfr Hsh Hin Hfuel) as Hret.
  pose proof (expand_lake_writes fuel y x elev river ld mg) as Hw.
  fold r in Hret, Hw.
  split_and!; [done | by eapply lake_writes_wf | by eapply lake_writes_same_shape |].
  subst r. unfold expand_lake in *. rewrite (getitem_inside _ _ _ Hwf Hin) in *.
  intros m Hm.
  destruct (lake_loop_flood elev (at_ elev (y, x)) ld mg (y, x) river Hwf
              fuel [(y, x)] ∅ river) with (m := m) as [Hfill Hkeep]; [|done|done|].
  { split_and!; [done | done | | | | | by left].
    - intros c ->%list_elem_of_singleton. constructor.
    - intros c Hc. by apply not_elem_of_empty in Hc.
    - intros c n Hc. by apply not_elem_of_empty in Hc.
    - right. by apply list_elem_of_singleton. }
  unfold basin. split.
  - intros (Hz & Hf & _ & Hb). by apply Hfill.
  - intros Hno. apply Hkeep. intros (Hz & Hf & Hb). apply Hno. done.
Qed.


(** Calling [expand_lake] a second time with the same arguments changes
    nothing: every cell holds after the second call what it held after the
    first. *)
Theorem expand_lake_twice fuel y x elev river ld mg :
  wf elev → wf river → same_shape river elev → inside elev (y, x) →
  (lake_fuel elev ≤ fuel)%nat →
  let once := (expand_lake fuel y x elev river ld mg).2 in
  let twice := expand_lake fuel y x elev once ld mg in
  twice.1 = Return () ∧ ∀ m, inside elev m → at_ twice.2 m = at_ once m.
Proof.
  intros Hwf Hwfr Hsh Hin Hfuel once twice.
  destruct (expand_lake_flood fuel y x elev river ld mg Hwf Hwfr Hsh Hin Hfuel)
    as (_ & Hwf1 & Hsh1 & H1).
  fold once in Hwf1, Hsh1, H1.
  destruct (expand_lake_flood fuel y x elev once ld mg Hwf Hwf1 Hsh1 Hin Hfuel)
    as (Hret & _ & _ & H2).
  fold twice in Hret, H2. split; [done|]. intros m Hm.
  apply H2; [done|]. intros [Hz Hb].
  destruct (H1 m Hm) as [Hfill Hkeep].
  destruct (Qeq_dec (at_ river m) 0) as [Hz0|Hnz].
  - rewrite Hfill in Hz by done. by apply lake_mark_nonzero.
  - rewrite Hkeep in Hz by tauto. done.
Qed.

Lemma seed_in_basin elev ld mg (seed : Z * Z) :
  inside elev seed → (0 <= ld)%Q → (0 <= mg)%Q → basin elev ld mg seed seed.
Proof.
  intros Hin Hld Hmg. split_and!; [constructor | done |].
  unfold in_band. split; lra.
Qed.

(** The band at its edges.  With a depth and a gradient that are not
    negative the seed is in its own basin, and does not hold zero after
    the call.  With [lake_depth + max_gradient < 0] the band is empty and
    the call changes no cell. *)
Theorem expand_lake_band_edges fuel y x elev river ld mg :
  wf elev → wf river → same_shape river elev → inside elev (y, x) →
  (lake_fuel elev ≤ fuel)%nat →
  let after := (expand_lake fuel y x elev river ld mg).2 in
  ((0 <= ld)%Q → (0 <= mg)%Q → ¬ (at_ after (y, x) == 0)%Q) ∧
  ((ld + mg < 0)%Q → ∀ m, inside elev m → at_ after m = at_ river m).
Proof.
  intros Hwf Hwfr Hsh Hin Hfuel after.
  destruct (expand_lake_flood fuel y x elev river ld mg Hwf Hwfr Hsh Hin Hfuel)
    as (_ & _ & _ & H).
  fold after in H. split.
  - intros Hld Hmg. destruct (H (y, x) Hin) as [Hfill Hkeep].
    pose proof (seed_in_basin elev ld mg (y, x) Hin Hld Hmg) as Hb.
    destruct (Qeq_dec (at_ river (y, x)) 0) as [Hz|Hnz].
    + rewrite Hfill by done. apply lake_mark_nonzero.
    + rewrite Hkeep by tauto. done.
  - intros Hneg m Hm. apply H; [done|].
    intros (_ & _ & _ & [H1 H2]). lra.
Qed.

(** ** River Compositor: the walk along a path *)

Lemma river_walk_returns water path : ∀ w0 river,
  wf water → wf river → same_shape water river →
  (∀ c, c ∈ path → inside river c) →
  ∃ river' width, river_walk water path w0 river = Return (river', width) ∧
                  wf river' ∧ same_shape river' river.
Proof.
  induction path as [|[y x] rest IH]; intros w0 river Hwfw Hwfr Hsh Hin; simpl.
  - exists river, w0. done.
  - assert (inside river (y, x)) as Hyx by (apply Hin; by left).
    rewrite (getitem_inside water y x Hwfw (inside_same_shape _ _ _ Hsh Hyx)). bind_simpl.
    set (w1 := if Qle_bool 1 (at_ water (y, x)) then _ else _).
    destruct (setitem_inside river y x w1 Hwfr Hyx) as (r1 & Hset).
    rewrite Hset. bind_simpl.
    pose proof (setitem_shape _ _ _ _ _ Hset) as [Hsh1 Hwf1].
    destruct (IH w1 r1) as (river' & width & -> & Hwf' & Hsh'); [done | by apply Hwf1 | | |].
    + destruct Hsh, Hsh1. split; congruence.
    + intros c Hc. eapply inside_same_shape; [done|]. apply Hin. by right.
    + exists river', width. split_and!; [done | done |].
      destruct Hsh1, Hsh'. split; congruence.
Qed.

(** What a walk leaves behind: off the path nothing changes, and on a path
    without repetition the values written start at the initial width or
    above, never fall from one cell to a later one, and end at the width
    returned. *)
Lemma river_walk_values water path : ∀ w0 river river' width,
  river_walk water path w0 river = Return (river', width) →
  NoDup path → (∀ c, c ∈ path → inside river c) →
  (w0 <= width)%Q ∧
  (∀ m, inside river m → m ∉ path → at_ river' m = at_ river m) ∧
  (∀ c, c ∈ path → (w0 <= at_ river' c <= width)%Q) ∧
  (∀ i j ci cj, path !! i = Some ci → path !! j = Some cj → (i ≤ j)%nat →
                (at_ river' ci <= at_ river' cj)%Q).
Proof.
  induction path as [|[y x] rest IH]; intros w0 river river' width Hwalk Hnd Hin.
  - simpl in Hwalk. injection Hwalk as <- <-. split_and!; [lra | done | |].
    + intros c Hc. by apply elem_of_nil in Hc.
    + intros i j ci cj Hi. done.
  - simpl in Hwalk. apply bind_Return_inv in Hwalk as (w & Hw & Hwalk).
    apply bind_Return_inv in Hwalk as (r1 & Hset & Hwalk).
    set (w1 := if Qle_bool 1 w then (w0 + w)%Q else w0) in *.
    assert (w0 <= w1)%Q as Hw01.
    { unfold w1. destruct (Qle_bool 1 w) eqn:E; [|lra]. apply Qle_bool_iff in E. lra. }
    apply NoDup_cons in Hnd as [Hnotin Hnd].
    assert (inside river (y, x)) as Hyx by (apply Hin; by left).
    pose proof (setitem_shape _ _ _ _ _ Hset) as [Hsh1 _].
    assert (∀ c, inside river c → inside r1 c) as Hins.
    { intros c Hc. by eapply inside_same_shape. }
    destruct (IH w1 r1 river' width Hwalk Hnd) as (Hle & Hoff & Hon & Hmono).
    { intros c Hc. apply Hins, Hin. by right. }
    assert (at_ river' (y, x) = w1) as Hhead.
    { rewrite Hoff by auto.
      by rewrite (setitem_at _ _ _ _ _ (y, x) Hset Hyx Hyx), decide_True. }
    split_and!.
    + lra.
    + intros m Hm Hnp. apply not_elem_of_cons in Hnp as [Hne Hnp].
      rewrite Hoff by auto.
      by rewrite (setitem_at _ _ _ _ _ m Hset Hyx Hm), decide_False.
    + intros c [->|Hc]%elem_of_cons.
      * rewrite Hhead. lra.
      * specialize (Hon c Hc). lra.
    + intros i j ci cj Hi Hj Hij. destruct i as [|i], j as [|j]; simpl in *.
      * injection Hi as <-. injection Hj as <-. lra.
      * injection Hi as <-. rewrite Hhead.
        apply Hon. by eapply list_elem_of_lookup_2.
      * lia.
      * eapply Hmono; [done | done | lia].
Qed.

(** Along a walked path the widths never fall.  On a path without
    repetition whose cells are in bounds, after the walk every cell of the
    path holds at least the width the walk started with and at most the
    one it ended with, a later cell never holds less than an earlier one,
    and the cells off the path are unchanged. *)
Theorem river_walk_widths_grow water path w0 river river' width :
  river_walk water path w0 river = Return (river', width) →
  NoDup path → (∀ c, c ∈ path → inside river c) →
  (∀ m, inside river m → m ∉ path → at_ river' m = at_ river m) ∧
  (∀ c, c ∈ path → (w0 <= at_ river' c <= width)%Q) ∧
  (∀ i j ci cj, path !! i = Some ci → path !! j = Some cj → (i ≤ j)%nat →
                (at_ river' ci <= at_ river' cj)%Q).
Proof.
  intros Hwalk Hnd Hin.
  by destruct (river_walk_values water path w0 river river' width Hwalk Hnd Hin)
    as (_ & ? & ? & ?).
Qed.

Lemma at_generate_water elev level c :
  wf elev → inside elev c →
  at_ (generate_water elev level) c = water_value level (at_ elev c).
Proof.
  intros Hwf Hin. destruct c as [y x].
  pose proof (getitem_inside elev y x Hwf Hin) as Hg.
  apply getitem_Return in Hg as (i & Hi & Hv).
  rewrite (flat_index_inside _ _ _ Hin) in Hi. injection Hi as <-.
  unfold at_ at 1. simpl. by rewrite list_lookup_fmap, Hv.
Qed.

Lemma inject_Z_S (k : nat) :
  (inject_Z (Z.of_nat (S k)) == inject_Z (Z.of_nat k) + 1)%Q.
Proof. rewrite Nat2Z.inj_succ. unfold Z.succ. rewrite inject_Z_plus. reflexivity. Qed.

Lemma river_walk_counts elev level path : ∀ w0 river river' width,
  river_walk (generate_water elev level) path w0 river = Return (river', width) →
  wf elev → NoDup path →
  (∀ c, c ∈ path → inside elev c) → (∀ c, c ∈ path → inside river c) →
  ∀ i c, path !! i = Some c →
    (at_ river' c ==
     w0 + inject_Z (Z.of_nat (length
            (filter (λ c', Qle_bool (at_ elev c') level = true) (take (S i) path)))))%Q.
Proof.
  induction path as [|[y x] rest IH];
    intros w0 river river' width Hwalk Hwf Hnd Hine Hinr i c Hi; [done|].
  simpl in Hwalk. apply bind_Return_inv in Hwalk as (w & Hw & Hwalk).
  apply bind_Return_inv in Hwalk as (r1 & Hset & Hwalk).
  assert (inside elev (y, x)) as Hyxe by (apply Hine; by left).
  assert (inside river (y, x)) as Hyx by (apply Hinr; by left).
  apply getitem_Return in Hw as (k & Hk & Hw).
  assert (w = water_value level (at_ elev (y, x))) as ->.
  { rewrite <- (at_generate_water elev level (y, x) Hwf Hyxe).
    unfold at_. simpl in *.
    assert (inside (generate_water elev level) (y, x)) as Hyxw by done.
    rewrite (flat_index_inside _ _ _ Hyxw) in Hk. injection Hk as <-.
    simpl. by rewrite Hw. }
  apply NoDup_cons in Hnd as [Hnotin Hnd].
  pose proof (setitem_shape _ _ _ _ _ Hset) as [Hsh1 _].
  assert (∀ c, c ∈ rest → inside r1 c) as Hinr1.
  { intros c' Hc'. eapply inside_same_shape; [done|]. apply Hinr. by right. }
  set (w1 := if Qle_bool 1 (water_value level (at_ elev (y, x))) then _ else _) in *.
  assert (w1 == w0 + inject_Z (Z.of_nat (length
            (filter (λ c', Qle_bool (at_ elev c') level = true) [(y, x)]))))%Q as Hw1.
  { unfold w1, water_value. rewrite filter_cons, filter_nil.
    destruct (Qle_bool (at_ elev (y, x)) level) eqn:Hle.
    - rewrite decide_True by done.
      destruct (Qlt_bool level (at_ elev (y, x))) eqn:Hlt.
      + apply Qle_bool_iff in Hle. apply Qlt_bool_iff in Hlt. lra.
      + change (Qle_bool 1 1) with true. cbn [length].
        change (inject_Z (Z.of_nat 1)) with 1%Q. reflexivity.
    - rewrite decide_False by congruence.
      destruct (Qlt_bool level (at_ elev (y, x)));
        change (Qle_bool 1 0) with false; cbn [length];
        change (inject_Z (Z.of_nat 0)) with 0%Q; lra. }
  destruct i as [|i]; simpl in Hi.
  - injection Hi as <-. cbn [take]. rewrite take_0.
    pose proof (river_walk_values _ _ _ _ _ _ Hwalk Hnd Hinr1) as (_ & Hoff & _).
    rewrite Hoff; [| by eapply inside_same_shape | done].
    by rewrite (setitem_at _ _ _ _ _ (y, x) Hset Hyx Hyx), decide_True.
  - rewrite (IH w1 r1 river' width Hwalk Hwf Hnd) with (i := i); [|auto..].
    2:{ intros c' Hc'. apply Hine. by right. }
    rewrite Hw1. cbn [take]. rewrite !filter_cons, filter_nil.
    destruct (decide (Qle_bool (at_ elev (y, x)) level = true)); cbn [length].
    + rewrite !inject_Z_S. change (inject_Z (Z.of_nat 0)) with 0%Q. lra.
    + change (inject_Z (Z.of_nat 0)) with 0%Q. lra.
Qed.

(** Walked over the mask of [generate_water], a path collects one unit of
    width per water cell: after the walk started at width 1, the cell at
    position [i] of the path holds 1 plus the number of cells at or below
    the water level among the cells of the path up to it. *)
Theorem river_width_counts_water elev level path river river' width :
  river_walk (generate_water elev level) path 1%Q river = Return (river', width) →
  wf elev → NoDup path →
  (∀ c, c ∈ path → inside elev c) → (∀ c, c ∈ path → inside river c) →
  ∀ i c, path !! i = Some c →
    (at_ river' c ==
     1 + inject_Z (Z.of_nat (length
           (filter (λ c', Qle_bool (at_ elev c') level = true) (take (S i) path)))))%Q.
Proof. apply river_walk_counts. Qed.

(** ** River Compositor: the whole of [generate_rivers] *)

Lemma find_downhill_water_path_enough fuel elev y x :
  wf elev → inside elev (y, x) → (shape0 elev * shape1 elev ≤ fuel)%nat →
  ∃ rest,
    find_downhill_water_path fuel y x elev = Return ((y, x) :: rest) ∧
    NoDup ((y, x) :: rest) ∧ (∀ c, c ∈ rest → inside elev c).
Proof.
  intros Hwf Hin Hfuel. unfold find_downhill_water_path.
  destruct (downhill_loop_spec elev fuel [] y x Hwf Hin) as (rest & Hp & _ & Hnd & Hrest).
  - apply NoDup_singleton.
  - intros c Hc. by apply elem_of_nil in Hc.
  - simpl. lia.
  - exists rest. done.
Qed.

Lemma lake_writes_at r r' m :
  lake_writes r r' →
  at_ r' m = at_ r m ∨ ((at_ r m == 0)%Q ∧ at_ r' m = lake_mark).
Proof.
  intros (_ & H1 & Hlen & Hw). unfold at_. rewrite H1.
  destruct (data r !! _) as [v|] eqn:E.
  - destruct (Hw _ _ E) as [->|[? ->]]; simpl; auto.
  - apply lookup_ge_None in E. rewrite <- Hlen in E.
    apply lookup_ge_None in E. rewrite E. by left.
Qed.

Lemma same_shape_sym a b : same_shape a b → same_shape b a.
Proof. intros [??]. by split. Qed.

Lemma same_shape_trans a b c : same_shape a b → same_shape b c → same_shape a c.
Proof. intros [??] [??]. split; congruence. Qed.

Lemma rivers_loop_spec fuel elev water :
  wf elev → wf water → same_shape water elev → (lake_fuel elev ≤ fuel)%nat →
  ∀ sources river,
    (∀ s, s ∈ sources → inside elev s) →
    wf river → same_shape river elev →
    (∀ m, inside elev m → (at_ river m == 0)%Q ∨ (1 <= at_ river m)%Q) →
    ∃ river',
      rivers_loop fuel elev water sources river = Return river' ∧
      wf river' ∧ same_shape river' elev ∧
      (∀ m, inside elev m → (at_ river' m == 0)%Q ∨ (1 <= at_ river' m)%Q) ∧
      (∀ m, inside elev m → (1 <= at_ river m)%Q → (1 <= at_ river' m)%Q) ∧
      (∀ s path, s ∈ sources →
         find_downhill_water_path fuel s.1 s.2 elev = Return path →
         ∀ c, c ∈ path → (1 <= at_ river' c)%Q).
Proof.
  intros Hwf Hwfw Hshw Hfuel.
  assert (shape0 elev * shape1 elev ≤ fuel)%nat as Hfuel' by (unfold lake_fuel in Hfuel; lia).
  induction sources as [|[y x] rest IH]; intros river Hsrc Hwfr Hsh Hval; cbn [rivers_loop].
  - exists river. split_and!; [done..|]. intros s path Hs. by apply elem_of_nil in Hs.
  - assert (inside elev (y, x)) as Hyx by (apply Hsrc; by left).
    destruct (find_downhill_water_path_enough fuel elev y x Hwf Hyx Hfuel')
      as (tl & Hpath & Hnd & Htl).
    rewrite Hpath. bind_simpl. set (path := (y, x) :: tl) in *.
    assert (∀ c, c ∈ path → inside elev c) as Hpin.
    { intros c [->|?]%elem_of_cons; auto. }
    assert (∀ c, c ∈ path → inside river c) as Hpinr.
    { intros c Hc. eapply inside_same_shape; [done | auto]. }
    destruct (river_walk_returns water path 1%Q river Hwfw Hwfr) as (r1 & width & Hwalk & Hwf1 & Hsh1).
    { eapply same_shape_trans; [done | by apply same_shape_sym]. }
    { done. }
    rewrite Hwalk. bind_simpl.
    destruct (river_walk_values _ _ _ _ _ _ Hwalk Hnd Hpinr) as (_ & Hoff & Hon & _).
    destruct (last path) as [c|] eqn:Hlast; [|by apply last_None in Hlast].
    unfold last_cell. rewrite Hlast. bind_simpl.
    assert (inside elev c) as Hc by (apply Hpin; by eapply last_Some_elem_of).
    assert (same_shape r1 elev) as Hsh1e by (by eapply same_shape_trans).
    destruct c as [cy cx]. cbn [fst snd].
    pose proof (expand_lake_returns fuel cy cx elev r1 100 50 Hwf Hwf1 Hsh1e Hc Hfuel) as Hret.
    pose proof (expand_lake_writes fuel cy cx elev r1 100 50) as Hw.
    unfold returned. rewrite Hret. bind_simpl.
    set (r2 := (expand_lake fuel cy cx elev r1 100 50).2) in *.
    assert (∀ m, inside elev m → (1 <= at_ r1 m)%Q → (1 <= at_ r2 m)%Q) as Hkeep.
    { intros m Hm H1. destruct (lake_writes_at _ _ m Hw) as [->|[Hz _]]; [done | lra]. }
    assert (∀ m, inside elev m → (1 <= at_ river m)%Q → (1 <= at_ r1 m)%Q) as Hkeep1.
    { intros m Hm H1. destruct (decide (m ∈ path)) as [Hp|Hp].
      - by apply Hon.
      - rewrite Hoff; [done | by eapply inside_same_shape | done]. }
    destruct (IH r2) as (river' & Hloop & Hwf' & Hsh' & Hval' & Hmono & Hpaths).
    { intros s Hs. apply Hsrc. by right. }
    { by eapply lake_writes_wf. }
    { by eapply lake_writes_same_shape. }
    { intros m Hm. destruct (lake_writes_at _ _ m Hw) as [->|[_ ->]].
      - destruct (decide (m ∈ path)) as [Hp|Hp].
        + right. by apply Hon.
        + rewrite Hoff; [auto | by eapply inside_same_shape | done].
      - right. unfold lake_mark. lra. }
    exists river'. split_and!; [done | done | done | done | |].
    + intros m Hm H1. auto.
    + intros s p [->|Hs]%elem_of_cons Hp c' Hc'.
      * simpl in Hp. rewrite Hpath in Hp. injection Hp as <-.
        apply Hmono; [auto|]. apply Hkeep; [auto|]. by apply Hon.
      * by eapply Hpaths.
Qed.

(** [generate_rivers] returns for every list of in-bounds sources, on an
    elevation map and a water map of one shape.  The river map has that
    shape; each of its cells holds zero or at least 1; and every cell on
    the downhill path of every source holds at least 1: neither a later
    river nor a lake takes a river cell back to zero. *)
Theorem generate_rivers_marks_paths elev water sources :
  wf elev → wf water → same_shape water elev →
  (∀ s, s ∈ sources → inside elev s) →
  ∃ river,
    generate_rivers (lake_fuel elev) elev water sources = Return river ∧
    same_shape river elev ∧
    (∀ m, inside elev m → (at_ river m == 0)%Q ∨ (1 <= at_ river m)%Q) ∧
    (∀ s path, s ∈ sources →
       find_downhill_water_path (lake_fuel elev) s.1 s.2 elev = Return path →
       ∀ c, c ∈ path → (1 <= at_ river c)%Q).
Proof.
  intros Hwf Hwfw Hshw Hsrc. unfold generate_rivers.
  destruct (rivers_loop_spec (lake_fuel elev) elev water Hwf Hwfw Hshw (le_n _)
              sources (zeros (shape0 elev) (shape1 elev)) Hsrc)
    as (river & Hloop & _ & Hsh & Hval & _ & Hpaths).
  - apply zeros_wf.
  - done.
  - intros m _. left. by rewrite at_zeros.
  - exists river. done.
Qed.

(** ** Lakes of all the local minima *)

Lemma is_local_minimum_lake_seed elev (c : Z * Z) :
  wf elev → inside elev c →
  ∃ b, is_local_minimum c.1 c.2 elev = Return b ∧ (b = true ↔ lake_seed elev c).
Proof.
  intros Hwf Hin. destruct c as [y x].
  destruct (is_local_minimum_spec elev y x Hwf Hin) as (b & Hb & Hiff).
  exists b. split; [done|]. rewrite Hiff. unfold lake_seed. tauto.
Qed.

Lemma lakes_loop_flood elev fuel :
  wf elev → (lake_fuel elev ≤ fuel)%nat →
  ∀ cs lakes seeds,
    wf lakes → same_shape lakes elev → (∀ c, c ∈ cs → inside elev c) →
    ∃ lakes' seeds',
      lakes_loop fuel elev cs lakes seeds = Return (lakes', seeds') ∧
      wf lakes' ∧ same_shape lakes' elev ∧
      ∀ m, inside elev m →
        ((at_ lakes m == 0)%Q ∧
         (∃ s, s ∈ cs ∧ lake_seed elev s ∧ basin elev 50 50 s m) →
         at_ lakes' m = lake_mark) ∧
        (¬ ((at_ lakes m == 0)%Q ∧
            (∃ s, s ∈ cs ∧ lake_seed elev s ∧ basin elev 50 50 s m)) →
         at_ lakes' m = at_ lakes m).
Proof.
  intros Hwf Hfuel. induction cs as [|[y x] rest IH];
    intros lakes seeds Hwfl Hsh Hin; cbn [lakes_loop].
  - exists lakes, seeds. split_and!; [done..|]. intros m _. split; [|done].
    intros (_ & s & Hs & _). by apply elem_of_nil in Hs.
  - assert (inside elev (y, x)) as Hyx by (apply Hin; by left).
    assert (∀ c, c ∈ rest → inside elev c) as Hrest by (intros c Hc; apply Hin; by right).
    destruct (is_local_minimum_lake_seed elev (y, x) Hwf Hyx) as (b & Hb & Hseed).
    simpl in Hb. rewrite Hb. bind_simpl. destruct b.
    + destruct (expand_lake_flood fuel y x elev lakes 50 50 Hwf Hwfl Hsh Hyx Hfuel)
        as (Hret & Hwf1 & Hsh1 & Hfill).
      pose proof (expand_lake_writes fuel y x elev lakes 50 50) as Hw.
      unfold returned. rewrite Hret. bind_simpl.
      set (l1 := (expand_lake fuel y x elev lakes 50 50).2) in *.
      destruct (IH l1 (seeds ++ [(y, x)]) Hwf1 Hsh1 Hrest)
        as (lakes' & seeds' & -> & Hwf' & Hsh' & Hspec).
      exists lakes', seeds'. split_and!; [done..|].
      intros m Hm. destruct (Hspec m Hm) as [Hfill' Hkeep'].
      destruct (Hfill m Hm) as [Hfill1 Hkeep1]. split.
      * intros (Hz & s & Hs & Hmin & Hb').
        destruct (Qeq_dec (at_ l1 m) 0) as [Hz1|Hnz1].
        -- apply Hfill'. split; [done|]. exists s. split_and!; [|done..].
           apply elem_of_cons in Hs as [->|?]; [|done]. exfalso.
           rewrite Hfill1 in Hz1 by done. by apply lake_mark_nonzero.
        -- rewrite Hkeep' by tauto.
           destruct (lake_writes_at _ _ m Hw) as [Heq|[_ ?]]; [|done].
           rewrite Heq in Hnz1. done.
      * intros Hno. rewrite Hkeep'.
        -- apply Hkeep1. intros [Hz Hb']. apply Hno. split; [done|].
           exists (y, x). split_and!; [by left | by apply Hseed | done].
        -- intros (Hz1 & s & Hs & Hmin & Hb'). apply Hno.
           destruct (lake_writes_at _ _ m Hw) as [Heq|[_ Hmark]].
           ++ rewrite Heq in Hz1. split; [done|]. exists s. split_and!; [by right | done..].
           ++ rewrite Hmark in Hz1. exfalso. by apply lake_mark_nonzero.
    + destruct (IH lakes seeds Hwfl Hsh Hrest) as (lakes' & seeds' & -> & Hwf' & Hsh' & Hspec).
      exists lakes', seeds'. split_and!; [done..|].
      intros m Hm. destruct (Hspec m Hm) as [Hfill' Hkeep']. split.
      * intros (Hz & s & Hs & Hmin & Hb'). apply Hfill'. split; [done|].
        exists s. split_and!; [|done..].
        apply elem_of_cons in Hs as [->|?]; [|done].
        apply Hseed in Hmin. done.
      * intros Hno. apply Hkeep'. intros (Hz & s & Hs & ?). apply Hno.
        split; [done|]. exists s. split; [by right | done].
Qed.

Lemma generate_lakes_flood elev river :
  wf elev → wf river → same_shape river elev →
  ∃ lakes,
    generate_lakes (lake_fuel elev) elev river = Return lakes ∧
    wf lakes ∧ same_shape lakes elev ∧
    ∀ m, inside elev m →
      ((at_ river m == 0)%Q ∧ (∃ s, lake_seed elev s ∧ basin elev 50 50 s m) →
       at_ lakes m = lake_mark) ∧
      (¬ ((at_ river m == 0)%Q ∧ (∃ s, lake_seed elev s ∧ basin elev 50 50 s m)) →
       at_ lakes m = at_ river m).
Proof.
  intros Hwf Hwfr Hsh. unfold generate_lakes, generate_lakes_seeded.
  destruct (lakes_loop_flood elev (lake_fuel elev) Hwf (le_n _) (cells elev) (copy river) [])
    as (lakes & seeds & -> & Hwf' & Hsh' & Hspec); [done | done | |].
  { intros c. apply elem_of_cells. }
  bind_simpl. exists lakes. split_and!; [done | done | done |].
  intros m Hm. destruct (Hspec m Hm) as [Hfill Hkeep]. split.
  - intros (Hz & s & Hmin & Hb). apply Hfill. split; [done|].
    exists s. split_and!; [|done..]. apply elem_of_cells. by destruct Hmin.
  - intros Hno. apply Hkeep. intros (Hz & s & _ & Hmin & Hb). apply Hno.
    split; [done|]. by exists s.
Qed.


(** [generate_lakes] never touches a river and always marks its seeds: a
    cell that is not zero in the river map holds the same value in the
    lakes map, and every cell without a strictly lower neighbour is not
    zero in the lakes map. *)
Theorem generate_lakes_keeps_rivers elev river :
  wf elev → wf river → same_shape river elev →
  ∃ lakes,
    generate_lakes (lake_fuel elev) elev river = Return lakes ∧
    (∀ m, inside elev m → ¬ (at_ river m == 0)%Q → at_ lakes m = at_ river m) ∧
    (∀ s, lake_seed elev s → ¬ (at_ lakes s == 0)%Q).
Proof.
  intros Hwf Hwfr Hsh.
  destruct (generate_lakes_flood elev river Hwf Hwfr Hsh) as (lakes & Hrun & _ & _ & Hspec).
  exists lakes. split_and!; [done | |].
  - intros m Hm Hnz. apply Hspec; [done | tauto].
  - intros s Hs. pose proof Hs as [Hin _]. destruct (Hspec s Hin) as [Hfill Hkeep].
    destruct (Qeq_dec (at_ river s) 0) as [Hz|Hnz].
    + rewrite Hfill; [apply lake_mark_nonzero|]. split; [done|]. exists s.
      split; [done|]. apply seed_in_basin; [done | lra | lra].
    + rewrite Hkeep; tauto.
Qed.

(** Running [generate_lakes] on its own result changes nothing: every
    cell of the second lakes map holds what the first holds. *)
Theorem generate_lakes_twice elev river :
  wf elev → wf river → same_shape river elev →
  ∃ lakes lakes',
    generate_lakes (lake_fuel elev) elev river = Return lakes ∧
    generate_lakes (lake_fuel elev) elev lakes = Return lakes' ∧
    ∀ m, inside elev m → at_ lakes' m = at_ lakes m.
Proof.
  intros Hwf Hwfr Hsh.
  destruct (generate_lakes_flood elev river Hwf Hwfr Hsh)
    as (lakes & Hrun & Hwf1 & Hsh1 & Hspec).
  destruct (generate_lakes_flood elev lakes Hwf Hwf1 Hsh1)
    as (lakes' & Hrun' & _ & _ & Hspec').
  exists lakes, lakes'. split_and!; [done | done |].
  intros m Hm. apply Hspec'; [done|]. intros [Hz Hex].
  destruct (Hspec m Hm) as [Hfill Hkeep].
  destruct (Qeq_dec (at_ river m) 0) as [Hz0|Hnz].
  - rewrite Hfill in Hz by done. by apply lake_mark_nonzero.
  - rewrite Hkeep in Hz by tauto. done.
Qed.

(** ** The merged map *)

Lemma merge_loop_spec elev river (cs : list (Z * Z)) : ∀ merged,
  wf river → same_shape river elev →
  wf merged → same_shape merged elev →
  NoDup cs → (∀ c, c ∈ cs → inside elev c) →
  ∃ merged',
    merge_loop river cs merged = Return merged' ∧
    wf merged' ∧ same_shape merged' elev ∧
    ∀ m, inside elev m →
      at_ merged' m =
      if decide (m ∈ cs) then
        if Qlt_bool 0 (at_ river m) then at_ river m else at_ merged m
      else at_ merged m.
Proof.
  induction cs as [|[y x] rest IH]; intros merged Hwfr Hshr Hwfm Hshm Hnd Hin;
    cbn [merge_loop].
  - exists merged. split_and!; [done..|]. intros m _.
    rewrite decide_False; [done | apply not_elem_of_nil].
  - apply NoDup_cons in Hnd as [Hnotin Hnd].
    assert (inside elev (y, x)) as Hyx by (apply Hin; by left).
    rewrite (getitem_inside river y x Hwfr (inside_same_shape _ _ _ Hshr Hyx)). bind_simpl.
    pose proof (inside_same_shape _ _ _ Hshm Hyx) as Hyxm.
    assert (∃ m1, (if Qlt_bool 0 (at_ river (y, x))
                   then setitem merged y x (at_ river (y, x)) else Return merged)
                  = Return m1 ∧ wf m1 ∧ same_shape m1 elev ∧
                  ∀ m, inside elev m →
                    at_ m1 m = if decide (m = (y, x))
                               then (if Qlt_bool 0 (at_ river m) then at_ river m
                                     else at_ merged m)
                               else at_ merged m) as (m1 & -> & Hwf1 & Hsh1 & Hat1).
    { destruct (Qlt_bool 0 (at_ river (y, x))) eqn:Hpos.
      - destruct (setitem_inside merged y x (at_ river (y, x)) Hwfm Hyxm) as (m1 & Hset).
        pose proof (setitem_shape _ _ _ _ _ Hset) as [Hsh1 Hwf1].
        exists m1. split_and!; [done | by apply Hwf1 | by eapply same_shape_trans |].
        intros m Hm.
        rewrite (setitem_at _ _ _ _ _ m Hset Hyxm (inside_same_shape _ _ _ Hshm Hm)).
        case_decide as Heq; [|done]. subst m. by rewrite Hpos.
      - exists merged. split_and!; [done..|]. intros m _.
        case_decide as Heq; [|done]. subst m. by rewrite Hpos. }
    bind_simpl.
    destruct (IH m1 Hwfr Hshr Hwf1 Hsh1 Hnd) as (merged' & -> & Hwf' & Hsh' & Hat).
    { intros c Hc. apply Hin. by right. }
    exists merged'. split_and!; [done..|].
    intros m Hm. rewrite (Hat m Hm), (Hat1 m Hm).
    destruct (decide (m ∈ rest)) as [Hr|Hr].
    + rewrite (decide_True (P := m ∈ (y, x) :: rest)) by (by right).
      rewrite decide_False; [|intros ->; done].
      by destruct (Qlt_bool 0 (at_ river m)).
    + destruct (decide (m = (y, x))) as [->|Hne].
      * rewrite (decide_True (P := (y, x) ∈ (y, x) :: rest)) by (by left). done.
      * rewrite (decide_False (P := m ∈ (y, x) :: rest)); [done|].
        by intros [?|?]%elem_of_cons.
Qed.

(** The merged map shows the river map where it is positive and the
    elevation elsewhere: on maps of one shape the merge returns, a cell
    whose river value is above zero holds the river value, and any other
    cell holds its elevation. *)
Theorem merged_map_overlays_rivers elev river :
  wf elev → wf river → same_shape river elev →
  ∃ merged,
    generate_merged_elevation_and_river_map elev river = Return merged ∧
    same_shape merged elev ∧
    ∀ m, inside elev m →
      ((0 < at_ river m)%Q → at_ merged m = at_ river m) ∧
      ((at_ river m <= 0)%Q → at_ merged m = at_ elev m).
Proof.
  intros Hwf Hwfr Hsh. unfold generate_merged_elevation_and_river_map.
  destruct (merge_loop_spec elev river (cells elev) (copy elev) Hwfr Hsh)
    as (merged & Hrun & _ & Hsh' & Hat); [done | done | apply NoDup_cells | |].
  { intros c. apply elem_of_cells. }
  exists merged. split_and!; [done | done |].
  intros m Hm. rewrite (Hat m Hm), decide_True by (by apply elem_of_cells).
  split.
  - intros Hpos%Qlt_bool_iff. by rewrite Hpos.
  - intros Hle%Qlt_bool_false. by rewrite Hle.
Qed.

Lemma merge_loop_raises river (cs : list (Z * Z)) : ∀ merged (c : Z * Z),
  c ∈ cs → getitem river c.1 c.2 = Raise IndexError →
  merge_loop river cs merged = Raise IndexError.
Proof.
  induction cs as [|[y x] rest IH]; intros merged c Hc Hraise; cbn [merge_loop].
  - by apply elem_of_nil in Hc.
  - destruct (getitem river y x) as [r| [] |] eqn:Hget; bind_simpl; try done.
    + apply elem_of_cons in Hc as [->|Hc]; [simpl in Hraise; congruence|].
      destruct (Qlt_bool 0 r).
      * destruct (setitem merged y x r) as [m1| [] |] eqn:Hset; bind_simpl; try done.
        -- by eapply IH.
        -- unfold setitem in Hset. repeat case_match; done.
        -- by apply setitem_not_Timeout in Hset.
      * bind_simpl. by eapply IH.
    + unfold getitem in Hget. repeat case_match; done.
    + by apply getitem_not_Timeout in Hget.
Qed.

(** A river map too small for the elevation map is not skipped over: if
    some cell of the elevation map is out of range for the river map, the
    merge ends in an [IndexError]. *)
Theorem merged_map_needs_matching_shapes elev river (c : Z * Z) :
  inside elev c →
  Z.of_nat (shape0 river) ≤ c.1 ∨ Z.of_nat (shape1 river) ≤ c.2 →
  generate_merged_elevation_and_river_map elev river = Raise IndexError.
Proof.
  intros Hin Hout. unfold generate_merged_elevation_and_river_map.
  apply merge_loop_raises with c; [by apply elem_of_cells|].
  apply getitem_out_of_range. destruct Hout; [left | right]; lia.
Qed.

(** ** The example script *)

Lemma find_water_sources_returns elev percentile :
  wf elev → (0 < shape0 elev)%nat → (0 < shape1 elev)%nat →
  (0 <= percentile <= 100)%Q →
  ∃ sources, find_water_sources elev percentile = Return sources ∧
             ∀ s, s ∈ sources → inside elev s.
Proof.
  intros Hwf Hr Hc Hq.
  destruct (np_percentile_returns (data elev) percentile
              (nonempty_data _ Hwf Hr Hc) Hq) as (t & Ht).
  unfold find_water_sources. rewrite Ht. bind_simpl.
  destruct (keep_local_maxima_spec elev (argwhere_gt elev t) Hwf) as (kept & Hk & Hspec).
  { intros c Hin. by apply elem_of_argwhere_gt in Hin as [? _]. }
  exists kept. split; [done|].
  intros s [[? _]%elem_of_argwhere_gt _]%Hspec. done.
Qed.

Lemma generate_water_sources_spec elev percentile sources :
  wf elev →
  find_water_sources elev percentile = Return sources →
  (∀ s, s ∈ sources → inside elev s) →
  ∃ m,
    generate_water_sources elev percentile = Return m ∧
    same_shape m elev ∧
    ∀ c, inside elev c → at_ m c = if decide (c ∈ sources) then 1%Q else 0%Q.
Proof.
  intros Hwf Hfind Hin. unfold generate_water_sources. rewrite Hfind. bind_simpl.
  destruct (mark_sources_spec sources (zeros (shape0 elev) (shape1 elev)))
    as (m & Hm & Hsh & _ & Hat).
  { apply zeros_wf. }
  { intros c Hc. apply Hin in Hc. done. }
  exists m. split_and!; [done | done |].
  intros c Hc. rewrite Hat by done. by rewrite at_zeros.
Qed.

Lemma generate_water_wf elev level :
  wf elev → wf (generate_water elev level) ∧ same_shape (generate_water elev level) elev.
Proof. unfold wf, same_shape, generate_water. simpl. by rewrite length_fmap. Qed.

(** On every elevation map that is not empty the hydrology part of the
    example script runs to its end: sources, source map, rivers, lakes
    and merged map are all computed, with no error.  And the maps agree at
    every source: the source map holds 1 there, the river map at least 1,
    and the lakes map and the merged map hold the river value. *)
Theorem tgen6_example_returns elev :
  wf elev → (0 < shape0 elev)%nat → (0 < shape1 elev)%nat →
  ∃ maps,
    tgen6_example (lake_fuel elev) elev = Return maps ∧
    ∀ s, s ∈ ex_water_sources maps →
      inside elev s ∧
      at_ (ex_water_sources_map maps) s = 1%Q ∧
      (1 <= at_ (ex_river_map maps) s)%Q ∧
      at_ (ex_lakes_map maps) s = at_ (ex_river_map maps) s ∧
      at_ (ex_merged_map maps) s = at_ (ex_river_map maps) s.
Proof.
  intros Hwf Hr Hc. unfold tgen6_example.
  destruct (find_water_sources_returns elev 95 Hwf Hr Hc) as (sources & Hfind & Hin).
  { split; unfold Qle; simpl; lia. }
  rewrite Hfind. bind_simpl.
  destruct (generate_water_sources_spec elev 95 sources Hwf Hfind Hin)
    as (smap & -> & _ & Hsmap).
  bind_simpl.
  destruct (generate_water_wf elev 1000 Hwf) as [Hwfw Hshw].
  unfold generate_rivers.
  destruct (rivers_loop_spec (lake_fuel elev) elev (generate_water elev 1000)
              Hwf Hwfw Hshw (le_n _) sources (zeros (shape0 elev) (shape1 elev)) Hin)
    as (river & -> & Hwfr & Hshr & _ & _ & Hpaths).
  { apply zeros_wf. }
  { done. }
  { intros m _. left. by rewrite at_zeros. }
  bind_simpl.
  destruct (generate_lakes_flood elev river Hwf Hwfr Hshr) as (lakes & -> & _ & _ & Hlakes).
  bind_simpl. unfold generate_merged_elevation_and_river_map.
  destruct (merge_loop_spec elev river (cells elev) (copy elev) Hwfr Hshr)
    as (merged & -> & _ & _ & Hmerged); [done | done | apply NoDup_cells | |].
  { intros c. apply elem_of_cells. }
  bind_simpl. eexists. split; [done|]. simpl.
  intros s Hs. pose proof (Hin s Hs) as Hsin.
  assert (1 <= at_ river s)%Q as Hone.
  { destruct s as [y x].
    destruct (find_downhill_water_path_enough (lake_fuel elev) elev y x Hwf Hsin)
      as (rest & Hpath & _).
    { unfold lake_fuel. lia. }
    eapply (Hpaths (y, x)); [done | exact Hpath | by left]. }
  split_and!; [done | | done | |].
  - by rewrite Hsmap, decide_True.
  - apply Hlakes; [done|]. intros [Hz _]. lra.
  - rewrite (Hmerged s Hsin), decide_True by (by apply elem_of_cells).
    assert (Qlt_bool 0 (at_ river s) = true) as -> by (apply Qlt_bool_iff; lra). done.
Qed.

(** * The further properties on concrete grids *)

Ltac cells_inside :=
  let c := fresh "c" in
  let Hc := fresh "Hc" in
  intros c Hc;
  repeat (apply elem_of_cons in Hc as [->|Hc]; [unfold inside; simpl; lia|]);
  by apply elem_of_nil in Hc.

Ltac by_evaluation := apply (bool_decide_unpack _); vm_compute; exact I.

Lemma find_downhill_water_path_descends_witness :
  wf slope_3x3 ∧ inside slope_3x3 (0, 0) ∧
  ∃ path,
    find_downhill_water_path (shape0 slope_3x3 * shape1 slope_3x3) 0 0 slope_3x3
      = Return path ∧
    (∀ c, c ∈ path → inside slope_3x3 c).
Proof.
  assert (wf slope_3x3) as Hwf by reflexivity.
  assert (inside slope_3x3 (0, 0)) as Hin by (unfold inside; simpl; lia).
  split; [exact Hwf|]. split; [exact Hin|].
  destruct (find_downhill_water_path_descends slope_3x3 0 0 Hwf Hin) as (path & Hp & Hall & _).
  exists path. split; [exact Hp | exact Hall].
Defined.

Lemma find_downhill_water_path_ends_in_minimum_witness :
  wf slope_3x3 ∧ inside slope_3x3 (0, 0) ∧
  ∃ path l,
    find_downhill_water_path (shape0 slope_3x3 * shape1 slope_3x3) 0 0 slope_3x3
      = Return path ∧
    last path = Some l ∧ is_local_minimum l.1 l.2 slope_3x3 = Return true.
Proof.
  assert (wf slope_3x3) as Hwf by reflexivity.
  assert (inside slope_3x3 (0, 0)) as Hin by (unfold inside; simpl; lia).
  split; [exact Hwf|]. split; [exact Hin|].
  exact (find_downhill_water_path_ends_in_minimum slope_3x3 0 0 Hwf Hin).
Defined.

Lemma out_of_range_raises_witness :
  (¬ (- Z.of_nat (shape0 slope_3x3) ≤ 3 < Z.of_nat (shape0 slope_3x3)) ∨
   ¬ (- Z.of_nat (shape1 slope_3x3) ≤ 0 < Z.of_nat (shape1 slope_3x3))) ∧
  is_local_minimum 3 0 slope_3x3 = Raise IndexError.
Proof.
  assert (¬ (- Z.of_nat (shape0 slope_3x3) ≤ 3 < Z.of_nat (shape0 slope_3x3)) ∨
          ¬ (- Z.of_nat (shape1 slope_3x3) ≤ 0 < Z.of_nat (shape1 slope_3x3))) as H
    by (left; simpl; lia).
  split; [exact H|].
  destruct (out_of_range_raises slope_3x3 3 0 H) as (_ & _ & Hmin & _). exact Hmin.
Defined.

Lemma find_water_sources_exact_witness :
  wf slope_3x3 ∧ (0 < shape0 slope_3x3)%nat ∧ (0 < shape1 slope_3x3)%nat ∧
  (0 <= 50 <= 100)%Q ∧
  ∃ threshold sources,
    np_percentile (data slope_3x3) 50 = Return threshold ∧
    find_water_sources slope_3x3 50 = Return sources ∧ NoDup sources.
Proof.
  assert (wf slope_3x3) as Hwf by reflexivity.
  assert (0 < shape0 slope_3x3)%nat as Hr by (simpl; lia).
  assert (0 < shape1 slope_3x3)%nat as Hc by (simpl; lia).
  assert (0 <= 50 <= 100)%Q as Hq by (split; unfold Qle; simpl; lia).
  split; [exact Hwf|]. split; [exact Hr|]. split; [exact Hc|]. split; [exact Hq|].
  destruct (find_water_sources_exact slope_3x3 50 Hwf Hr Hc Hq)
    as (t & sources & Ht & Hs & _ & Hnd & _).
  exists t, sources. split; [exact Ht|]. split; [exact Hs | exact Hnd].
Defined.

Lemma find_water_sources_above_lowest_witness :
  wf pit_3x3 ∧ (0 < shape0 pit_3x3)%nat ∧ (0 < shape1 pit_3x3)%nat ∧
  (0 <= 50 <= 100)%Q ∧
  ∃ sources, find_water_sources pit_3x3 50 = Return sources.
Proof.
  assert (wf pit_3x3) as Hwf by reflexivity.
  assert (0 < shape0 pit_3x3)%nat as Hr by (simpl; lia).
  assert (0 < shape1 pit_3x3)%nat as Hc by (simpl; lia).
  assert (0 <= 50 <= 100)%Q as Hq by (split; unfold Qle; simpl; lia).
  split; [exact Hwf|]. split; [exact Hr|]. split; [exact Hc|]. split; [exact Hq|].
  destruct (find_water_sources_above_lowest pit_3x3 50 Hwf Hr Hc Hq) as (sources & Hs & _).
  exists sources. exact Hs.
Defined.

Lemma generate_water_sources_marks_witness :
  wf slope_3x3 ∧ find_water_sources slope_3x3 50 = Return [(0, 0)] ∧
  ∃ m, generate_water_sources slope_3x3 50 = Return m ∧ same_shape m slope_3x3.
Proof.
  assert (wf slope_3x3) as Hwf by reflexivity.
  assert (find_water_sources slope_3x3 50 = Return [(0, 0)]) as Hs
    by (vm_compute; reflexivity).
  split; [exact Hwf|]. split; [exact Hs|].
  destruct (generate_water_sources_marks slope_3x3 50 [(0, 0)] Hwf Hs) as (m & Hm & Hsh & _).
  exists m. split; [exact Hm | exact Hsh].
Defined.


Lemma expand_lake_twice_witness :
  wf pit_3x3 ∧ wf (zeros 3 3) ∧ same_shape (zeros 3 3) pit_3x3 ∧
  inside pit_3x3 (1, 1) ∧ (lake_fuel pit_3x3 ≤ lake_fuel pit_3x3)%nat ∧
  (expand_lake (lake_fuel pit_3x3) 1 1 pit_3x3
     (expand_lake (lake_fuel pit_3x3) 1 1 pit_3x3 (zeros 3 3) 100 50).2 100 50).1
  = Return ().
Proof.
  assert (wf pit_3x3) as Hwf by reflexivity.
  assert (wf (zeros 3 3)) as Hwfr by reflexivity.
  assert (same_shape (zeros 3 3) pit_3x3) as Hsh by (split; reflexivity).
  assert (inside pit_3x3 (1, 1)) as Hin by (unfold inside; simpl; lia).
  assert (lake_fuel pit_3x3 ≤ lake_fuel pit_3x3)%nat as Hfuel by lia.
  split; [exact Hwf|]. split; [exact Hwfr|]. split; [exact Hsh|].
  split; [exact Hin|]. split; [exact Hfuel|].
  destruct (expand_lake_twice (lake_fuel pit_3x3) 1 1 pit_3x3 (zeros 3 3) 100 50
              Hwf Hwfr Hsh Hin Hfuel) as (Hret & _).
  exact Hret.
Defined.

Lemma expand_lake_band_edges_witness :
  wf pit_3x3 ∧ wf (zeros 3 3) ∧ same_shape (zeros 3 3) pit_3x3 ∧
  inside pit_3x3 (1, 1) ∧ (lake_fuel pit_3x3 ≤ lake_fuel pit_3x3)%nat ∧
  ((-1 + -1 < 0)%Q →
   ∀ m, inside pit_3x3 m →
        at_ (expand_lake (lake_fuel pit_3x3) 1 1 pit_3x3 (zeros 3 3) (-1) (-1)).2 m
        = at_ (zeros 3 3) m).
Proof.
  assert (wf pit_3x3) as Hwf by reflexivity.
  assert (wf (zeros 3 3)) as Hwfr by reflexivity.
  assert (same_shape (zeros 3 3) pit_3x3) as Hsh by (split; reflexivity).
  assert (inside pit_3x3 (1, 1)) as Hin by (unfold inside; simpl; lia).
  assert (lake_fuel pit_3x3 ≤ lake_fuel pit_3x3)%nat as Hfuel by lia.
  split; [exact Hwf|]. split; [exact Hwfr|]. split; [exact Hsh|].
  split; [exact Hin|]. split; [exact Hfuel|].
  destruct (expand_lake_band_edges (lake_fuel pit_3x3) 1 1 pit_3x3 (zeros 3 3) (-1) (-1)
              Hwf Hwfr Hsh Hin Hfuel) as (_ & Hempty).
  exact Hempty.
Defined.

Lemma river_walk_widths_grow_witness :
  river_walk (generate_water slope_3x3 (-3)) diagonal_3x3 1%Q (zeros 3 3)
    = Return (slope_3x3_walked, 2%Q) ∧
  NoDup diagonal_3x3 ∧
  (∀ c, c ∈ diagonal_3x3 → inside (zeros 3 3) c) ∧
  (∀ c, c ∈ diagonal_3x3 →
        (1 <= at_ (slope_3x3_walked) c <= 2)%Q).
Proof.
  assert (river_walk (generate_water slope_3x3 (-3)) diagonal_3x3 1%Q (zeros 3 3)
          = Return (slope_3x3_walked, 2%Q)) as Hwalk
    by (vm_compute; reflexivity).
  assert (NoDup diagonal_3x3) as Hnd by by_evaluation.
  assert (∀ c, c ∈ diagonal_3x3 → inside (zeros 3 3) c) as Hin by (unfold diagonal_3x3; cells_inside).
  split; [exact Hwalk|]. split; [exact Hnd|]. split; [exact Hin|].
  destruct (river_walk_widths_grow _ _ _ _ _ _ Hwalk Hnd Hin) as (_ & Hon & _).
  exact Hon.
Defined.

Lemma river_width_counts_water_witness :
  river_walk (generate_water slope_3x3 (-3)) diagonal_3x3 1%Q (zeros 3 3)
    = Return (slope_3x3_walked, 2%Q) ∧
  wf slope_3x3 ∧ NoDup diagonal_3x3 ∧
  (∀ c, c ∈ diagonal_3x3 → inside slope_3x3 c) ∧
  (∀ c, c ∈ diagonal_3x3 → inside (zeros 3 3) c) ∧
  ∀ i c, diagonal_3x3 !! i = Some c →
    (at_ (slope_3x3_walked) c ==
     1 + inject_Z (Z.of_nat (length
           (filter (λ c', Qle_bool (at_ slope_3x3 c') (-3) = true)
                   (take (S i) diagonal_3x3)))))%Q.
Proof.
  assert (river_walk (generate_water slope_3x3 (-3)) diagonal_3x3 1%Q (zeros 3 3)
          = Return (slope_3x3_walked, 2%Q)) as Hwalk
    by (vm_compute; reflexivity).
  assert (wf slope_3x3) as Hwf by reflexivity.
  assert (NoDup diagonal_3x3) as Hnd by by_evaluation.
  assert (∀ c, c ∈ diagonal_3x3 → inside slope_3x3 c) as Hine by (unfold diagonal_3x3; cells_inside).
  assert (∀ c, c ∈ diagonal_3x3 → inside (zeros 3 3) c) as Hin by (unfold diagonal_3x3; cells_inside).
  split; [exact Hwalk|]. split; [exact Hwf|]. split; [exact Hnd|].
  split; [exact Hine|]. split; [exact Hin|].
  exact (river_width_counts_water slope_3x3 (-3) _ _ _ _ Hwalk Hwf Hnd Hine Hin).
Defined.

Lemma generate_rivers_marks_paths_witness :
  wf slope_3x3 ∧ wf (generate_water slope_3x3 (-3)) ∧
  same_shape (generate_water slope_3x3 (-3)) slope_3x3 ∧
  (∀ s, s ∈ [(0, 0)] → inside slope_3x3 s) ∧
  ∃ river,
    generate_rivers (lake_fuel slope_3x3) slope_3x3 (generate_water slope_3x3 (-3)) [(0, 0)]
      = Return river ∧
    same_shape river slope_3x3.
Proof.
  assert (wf slope_3x3) as Hwf by reflexivity.
  assert (wf (generate_water slope_3x3 (-3))) as Hwfw by reflexivity.
  assert (same_shape (generate_water slope_3x3 (-3)) slope_3x3) as Hsh by (split; reflexivity).
  assert (∀ s, s ∈ [(0, 0)] → inside slope_3x3 s) as Hin by cells_inside.
  split; [exact Hwf|]. split; [exact Hwfw|]. split; [exact Hsh|]. split; [exact Hin|].
  destruct (generate_rivers_marks_paths slope_3x3 (generate_water slope_3x3 (-3)) [(0, 0)]
              Hwf Hwfw Hsh Hin) as (river & Hrun & Hshape & _).
  exists river. split; [exact Hrun | exact Hshape].
Defined.


Lemma generate_lakes_keeps_rivers_witness :
  wf pit_3x3 ∧ wf (zeros 3 3) ∧ same_shape (zeros 3 3) pit_3x3 ∧
  ∃ lakes,
    generate_lakes (lake_fuel pit_3x3) pit_3x3 (zeros 3 3) = Return lakes ∧
    (∀ s, lake_seed pit_3x3 s → ¬ (at_ lakes s == 0)%Q).
Proof.
  assert (wf pit_3x3) as Hwf by reflexivity.
  assert (wf (zeros 3 3)) as Hwfr by reflexivity.
  assert (same_shape (zeros 3 3) pit_3x3) as Hsh by (split; reflexivity).
  split; [exact Hwf|]. split; [exact Hwfr|]. split; [exact Hsh|].
  destruct (generate_lakes_keeps_rivers pit_3x3 (zeros 3 3) Hwf Hwfr Hsh)
    as (lakes & Hrun & _ & Hseeds).
  exists lakes. split; [exact Hrun | exact Hseeds].
Defined.

Lemma generate_lakes_twice_witness :
  wf pit_3x3 ∧ wf (zeros 3 3) ∧ same_shape (zeros 3 3) pit_3x3 ∧
  ∃ lakes lakes',
    generate_lakes (lake_fuel pit_3x3) pit_3x3 (zeros 3 3) = Return lakes ∧
    generate_lakes (lake_fuel pit_3x3) pit_3x3 lakes = Return lakes' ∧
    ∀ m, inside pit_3x3 m → at_ lakes' m = at_ lakes m.
Proof.
  assert (wf pit_3x3) as Hwf by reflexivity.
  assert (wf (zeros 3 3)) as Hwfr by reflexivity.
  assert (same_shape (zeros 3 3) pit_3x3) as Hsh by (split; reflexivity).
  split; [exact Hwf|]. split; [exact Hwfr|]. split; [exact Hsh|].
  exact (generate_lakes_twice pit_3x3 (zeros 3 3) Hwf Hwfr Hsh).
Defined.

Lemma merged_map_overlays_rivers_witness :
  wf pit_3x3 ∧ wf lake_3x3 ∧
  same_shape lake_3x3 pit_3x3 ∧
  ∃ merged,
    generate_merged_elevation_and_river_map pit_3x3 lake_3x3
      = Return merged ∧
    same_shape merged pit_3x3.
Proof.
  assert (wf pit_3x3) as Hwf by reflexivity.
  assert (wf lake_3x3) as Hwfr by reflexivity.
  assert (same_shape lake_3x3 pit_3x3) as Hsh
    by (split; reflexivity).
  split; [exact Hwf|]. split; [exact Hwfr|]. split; [exact Hsh|].
  destruct (merged_map_overlays_rivers pit_3x3 _ Hwf Hwfr Hsh) as (merged & Hrun & Hshape & _).
  exists merged. split; [exact Hrun | exact Hshape].
Defined.

Lemma merged_map_needs_matching_shapes_witness :
  inside pit_3x3 (2, 0) ∧
  (Z.of_nat (shape0 (zeros 2 3)) ≤ (2, 0).1 ∨ Z.of_nat (shape1 (zeros 2 3)) ≤ (2, 0).2) ∧
  generate_merged_elevation_and_river_map pit_3x3 (zeros 2 3) = Raise IndexError.
Proof.
  assert (inside pit_3x3 (2, 0)) as Hin by (unfold inside; simpl; lia).
  assert (Z.of_nat (shape0 (zeros 2 3)) ≤ (2, 0).1 ∨
          Z.of_nat (shape1 (zeros 2 3)) ≤ (2, 0).2) as Hout by (left; simpl; lia).
  split; [exact Hin|]. split; [exact Hout|].
  exact (merged_map_needs_matching_shapes pit_3x3 (zeros 2 3) (2, 0) Hin Hout).
Defined.

Lemma tgen6_example_returns_witness :
  wf pit_3x3 ∧ (0 < shape0 pit_3x3)%nat ∧ (0 < shape1 pit_3x3)%nat ∧
  ∃ maps, tgen6_example (lake_fuel pit_3x3) pit_3x3 = Return maps.
Proof.
  assert (wf pit_3x3) as Hwf by reflexivity.
  assert (0 < shape0 pit_3x3)%nat as Hr by (simpl; lia).
  assert (0 < shape1 pit_3x3)%nat as Hc by (simpl; lia).
  split; [exact Hwf|]. split; [exact Hr|]. split; [exact Hc|].
  destruct (tgen6_example_returns pit_3x3 Hwf Hr Hc) as (maps & Hrun & _).
  exists maps. exact Hrun.
Defined.
